(** * POD form store: the inverted index of stored forms and its query matcher

    A shallow embedding of the Go functions [writeFormFile], [indexFile],
    [filesMatchingQuery] and of the POST branch of [handler], together with
    the properties of the key/value index that the design document states.
    The form server and the dashboard server (pod.go) share [writeFormFile]
    and [indexFile]; the matcher and [handler] belong to the form server,
    [newSession] to the dashboard server.

    Go strings are byte strings: they are modelled by [string] (a list of
    8-bit [ascii] bytes).  A Go [map[string][]string] is a
    [gmap string (list string)]; a Go [map[string]struct{}] is a
    [gset string].  Ranging over a Go map visits its entries in an
    unspecified order: every function that ranges over a map takes the
    visiting order as an explicit list, and [ranges m order] says that
    [order] is one of the orders in which [m] can be visited. *)

From Stdlib Require Import Ascii NArith ZArith.
From stdpp Require Import base decidable option list gmap sets strings pretty.

Set Warnings "-clear-no-such-hyp".

Local Open Scope N_scope.

(** ** [strings.TrimSpace]

    [TrimSpace] removes all leading and trailing white space, as defined by
    Unicode ([unicode.IsSpace]): U+0009..U+000D, U+0020, U+0085, U+00A0,
    U+1680, U+2000..U+200A, U+2028, U+2029, U+202F, U+205F and U+3000.  On
    the bytes of the string these are the single bytes 09..0D and 20, and the
    UTF-8 encodings C2 85, C2 A0, E1 9A 80, E2 80 80..E2 80 8A, E2 80 A8,
    E2 80 A9, E2 80 AF, E2 81 9F and E3 80 80.  An invalid or overlong
    sequence decodes to U+FFFD, which is not white space, so a string starts
    (ends) with a white-space rune exactly when it starts (ends) with one of
    these byte sequences. *)
Module GoStrings.

Definition code (c : ascii) : N := N_of_ascii c.

(** The [asciiSpace] table: tab, line feed, vertical tab, form feed,
    carriage return and space. *)
Definition asciiSpace (c : ascii) : bool :=
  match code c with
  | 9 | 10 | 11 | 12 | 13 | 32 => true
  | _ => false
  end.

(** Two-byte encodings of white space: U+0085 and U+00A0. *)
Definition isSpace2 (b0 b1 : ascii) : bool :=
  (code b0 =? 0xC2) && ((code b1 =? 0x85) || (code b1 =? 0xA0)).

(** Three-byte encodings of white space. *)
Definition isSpace3 (b0 b1 b2 : ascii) : bool :=
  ((code b0 =? 0xE1) && (code b1 =? 0x9A) && (code b2 =? 0x80))
  || ((code b0 =? 0xE2) && (code b1 =? 0x80)
      && (((0x80 <=? code b2) && (code b2 <=? 0x8A))
          || (code b2 =? 0xA8) || (code b2 =? 0xA9) || (code b2 =? 0xAF)))
  || ((code b0 =? 0xE2) && (code b1 =? 0x81) && (code b2 =? 0x9F))
  || ((code b0 =? 0xE3) && (code b1 =? 0x80) && (code b2 =? 0x80)).

(** [TrimLeftFunc(s, unicode.IsSpace)]: drop white-space runes from the
    front. *)
Fixpoint trimLeft (s : string) : string :=
  match s with
  | String b0 r0 =>
      if asciiSpace b0 then trimLeft r0
      else match r0 with
           | String b1 r1 =>
               if isSpace2 b0 b1 then trimLeft r1
               else match r1 with
                    | String b2 r2 =>
                        if isSpace3 b0 b1 b2 then trimLeft r2 else s
                    | EmptyString => s
                    end
           | EmptyString => s
           end
  | EmptyString => s
  end.

(** [TrimRightFunc(s, unicode.IsSpace)] on the reversed string: the bytes
    come last byte first, so the lead byte of an encoding is seen last. *)
Fixpoint trimLeftRev (s : string) : string :=
  match s with
  | String b0 r0 =>
      if asciiSpace b0 then trimLeftRev r0
      else match r0 with
           | String b1 r1 =>
               if isSpace2 b1 b0 then trimLeftRev r1
               else match r1 with
                    | String b2 r2 =>
                        if isSpace3 b2 b1 b0 then trimLeftRev r2 else s
                    | EmptyString => s
                    end
           | EmptyString => s
           end
  | EmptyString => s
  end.

Definition trimRight (s : string) : string :=
  String.rev (trimLeftRev (String.rev s)).

Definition TrimSpace (s : string) : string := trimRight (trimLeft s).

(** A string that consists only of white space: a sequence of the byte
    sequences above. *)
Inductive whitespace : string → Prop :=
  | ws_nil : whitespace ""
  | ws_ascii b s :
      asciiSpace b = true → whitespace s → whitespace (String b s)
  | ws_two b0 b1 s :
      isSpace2 b0 b1 = true → whitespace s →
      whitespace (String b0 (String b1 s))
  | ws_three b0 b1 b2 s :
      isSpace3 b0 b1 b2 = true → whitespace s →
      whitespace (String b0 (String b1 (String b2 s))).

End GoStrings.

Export GoStrings.

Local Close Scope N_scope.

(** ** The shared state

    The three package-level variables guarded by [mu]. *)
Record store := Store {
  keyToFiles : gmap string (list string);   (* key   -> filenames *)
  valueToFiles : gmap string (list string); (* value -> filenames *)
  storedFiles : list string                 (* ordered list of filenames *)
}.

(** The state at program start: two empty maps and a nil slice. *)
Definition initial : store := Store ∅ ∅ [].

(** [m[k]] on a map of slices: the nil slice when [k] is absent. *)
Definition index (m : gmap string (list string)) (k : string) : list string :=
  default [] (m !! k).

(** [order] is one of the orders in which [for k, v := range m] can visit
    the entries of [m]. *)
Definition ranges (m : gmap string (list string))
    (order : list (string * list string)) : Prop :=
  order ≡ₚ map_to_list m.

(** ** [writeFormFile]

    The base name is [fmt.Sprintf("form_%d", ts)] where [ts] is the clock
    reading [time.Now().UnixNano()].  Creating the directory or the file can
    fail; [fsOK] is the outcome of these two calls.  The bytes written to the
    file do not flow back into the index. *)
Definition baseNameAt (ts : Z) : string := "form_" +:+ pretty ts.

Definition writeFormFile (ts : Z) (fsOK : bool) : option string :=
  if fsOK then Some (baseNameAt ts) else None.

(** ** [newSession]

    The session identifier is [fmt.Sprintf("%d-%d", ts, nextSessNum)]: the
    clock reading followed by a counter that is incremented under the lock.
    [nextSessNum] is an [int64], whose increment wraps around. *)
Definition wrap64 (z : Z) : Z := ((z + 2 ^ 63) mod 2 ^ 64 - 2 ^ 63)%Z.

Record sessionStore := SessionStore {
  sessions : gmap string string;  (* sessionID -> username *)
  nextSessNum : Z
}.

Definition newSession (ts : Z) (username : string)
    (ss : sessionStore) : string * sessionStore :=
  let id := pretty ts +:+ "-" +:+ pretty (nextSessNum ss) in
  (id, {| sessions := <[id := username]> (sessions ss);
          nextSessNum := wrap64 (nextSessNum ss + 1) |}).

(** ** [indexFile] *)

(** The body of the inner loop [for _, v := range vals]. *)
Definition indexValue (baseName : string)
    (vtf : gmap string (list string)) (v : string) : gmap string (list string) :=
  let v := TrimSpace v in
  if decide (v = "") then vtf
  else <[v := index vtf v ++ [baseName]]> vtf.

(** The body of the outer loop [for k, vals := range values]. *)
Definition indexEntry (baseName : string) (st : store)
    (kv : string * list string) : store :=
  let k := TrimSpace kv.1 in
  if decide (k = "") then st
  else {| keyToFiles := <[k := index (keyToFiles st) k ++ [baseName]]> (keyToFiles st);
          valueToFiles := foldl (indexValue baseName) (valueToFiles st) kv.2;
          storedFiles := storedFiles st |}.

Definition indexFile (baseName : string) (order : list (string * list string))
    (st : store) : store :=
  foldl (indexEntry baseName)
    {| keyToFiles := keyToFiles st;
       valueToFiles := valueToFiles st;
       storedFiles := storedFiles st ++ [baseName] |}
    order.

(** ** [filesMatchingQuery] *)

(** [tmp]: the set built from [filesWithKey]. *)
Definition keySet (st : store) (qk : string) : gset string :=
  foldl (λ tmp fn, {[fn]} ∪ tmp) ∅ (index (keyToFiles st) qk).

(** The two nested loops that fill [filtered]. *)
Definition filterValues (st : store) (tmp : gset string)
    (qvs : list string) : gset string :=
  foldl (λ filtered val,
           foldl (λ filtered fn,
                    if decide (fn ∈ tmp) then {[fn]} ∪ filtered else filtered)
                 filtered (index (valueToFiles st) val))
        ∅ qvs.

(** The value of [tmp] when the comparison with [candidateSet] starts: the
    candidate set of one queried field. *)
Definition candidates (st : store) (qk : string) (qvs : list string) : gset string :=
  let tmp := keySet st qk in
  if decide (0 < length qvs) then filterValues st tmp qvs else tmp.

(** The loop [for qk, qvs := range query], with its [break].  Building
    [newSet] by ranging over [candidateSet] and keeping the members of [tmp]
    is a filter of the set. *)
Fixpoint matchLoop (st : store) (first : bool) (candidateSet : gset string)
    (order : list (string * list string)) : gset string :=
  match order with
  | [] => candidateSet
  | (qk, qvs) :: rest =>
      let tmp := candidates st qk qvs in
      let candidateSet :=
        if first then tmp else filter (λ fn, fn ∈ tmp) candidateSet in
      if decide (size candidateSet = 0) then candidateSet
      else matchLoop st false candidateSet rest
  end.

Definition filesMatchingQuery (st : store)
    (order : list (string * list string)) : list string :=
  if decide (length order = 0) then storedFiles st
  else
    let candidateSet := matchLoop st true ∅ order in
    filter (λ fn, fn ∈ candidateSet) (storedFiles st).

(** ** The POST branch of [handler] *)
Inductive response :=
  | BadRequest
  | InternalServerError
  | Saved (baseName : string).

Definition handlerPost (ts : Z) (fsOK : bool)
    (postForm : gmap string (list string))
    (order : list (string * list string)) (st : store) : store * response :=
  if decide (size postForm = 0) then (st, BadRequest)
  else match writeFormFile ts fsOK with
       | None => (st, InternalServerError)
       | Some baseName => (indexFile baseName order st, Saved baseName)
       end.

(** ** Histories

    [built hist st]: [st] is the state after the calls of [indexFile] listed
    in [hist] (file name and field map, oldest first), each ranging over its
    map in some order. *)
Inductive built : list (string * gmap string (list string)) → store → Prop :=
  | built_nil : built [] initial
  | built_snoc hist st baseName values order :
      built hist st →
      ranges values order →
      built (hist ++ [(baseName, values)]) (indexFile baseName order st).

(** ** The candidate set in the words of the design document

    [keyIndex] and [valueIndex] read the two maps as sets of identifiers.
    [C_k] is [keyIndex k]; when the accepted value list is not empty it is
    narrowed to its intersection with the union of [valueIndex v] over the
    accepted values [v]. *)
Definition keyIndex (st : store) (k : string) : gset string :=
  list_to_set (index (keyToFiles st) k).

Definition valueIndex (st : store) (v : string) : gset string :=
  list_to_set (index (valueToFiles st) v).

Definition specCandidates (st : store) (k : string) (V : list string) : gset string :=
  match V with
  | [] => keyIndex st k
  | _ => keyIndex st k ∩ ⋃ (valueIndex st <$> V)
  end.

(** ** The scenario of the design document

    Two submissions, [A] with color red and size M, then [B] with color blue
    and size M. *)
Definition formA : gmap string (list string) :=
  {[ "color" := ["red"]; "size" := ["M"] ]}.

Definition formB : gmap string (list string) :=
  {[ "color" := ["blue"]; "size" := ["M"] ]}.

Definition scenario : store :=
  indexFile "B" (map_to_list formB) (indexFile "A" (map_to_list formA) initial).

(** The query for color red and size L, which no submission has. *)
Definition queryRedL : gmap string (list string) :=
  {[ "color" := ["red"]; "size" := ["L"] ]}.

(** A submission that carries the value x twice under one field and once
    more under another: its name enters [valueToFiles] three times. *)
Definition formDup : gmap string (list string) :=
  {[ "a" := ["x"; "x"]; "b" := ["x"] ]}.

Definition dupStore : store := indexFile "form_1" (map_to_list formDup) initial.

(** A field whose name and value carry surrounding blanks, and the same
    field without them. *)
Definition paddedKV : gmap string (list string) := {[ " k " := [" v "] ]}.

Definition plainKV : gmap string (list string) := {[ "k" := ["v"] ]}.

(** A field with a padded name and a plain value, stored as [form_1]. *)
Definition paddedName : gmap string (list string) := {[ " k " := ["v"] ]}.

Definition paddedPost : store * response :=
  handlerPost 1 true paddedName (map_to_list paddedName) initial.

(** Two POST requests whose calls of [writeFormFile] read the same clock
    value. *)
Definition sameInstant : Z := 1700000000000000000.

Definition formOne : gmap string (list string) := {[ "a" := ["1"] ]}.

Definition formTwo : gmap string (list string) := {[ "b" := ["2"] ]}.

Definition firstPost : store * response :=
  handlerPost sameInstant true formOne (map_to_list formOne) initial.

Definition secondPost : store * response :=
  handlerPost sameInstant true formTwo (map_to_list formTwo) firstPost.1.

(** A no-break space, U+00A0, as its two bytes. *)
Definition nbsp : string :=
  String (ascii_of_N 0xC2) (String (ascii_of_N 0xA0) "").

(** ** What one call of [indexFile] appends

    [keyHits order k] counts the visited fields whose trimmed name is the
    non-empty key [k]; [valueHits order v] counts, under the fields with a
    non-blank name, the values whose trimmed form is the non-empty [v]. *)
Definition keyHits (order : list (string * list string)) (k : string) : nat :=
  length (filter (λ kv, TrimSpace kv.1 = k ∧ k ≠ "") order).

Definition valueHitsOf (vs : list string) (v : string) : nat :=
  length (filter (λ v', TrimSpace v' = v ∧ v ≠ "") vs).

Definition valueHits (order : list (string * list string)) (v : string) : nat :=
  sum_list ((λ kv, if decide (TrimSpace kv.1 = "") then 0
                   else valueHitsOf kv.2 v) <$> order).

(** ** Matching by a scan of the submissions

    The reference against which the index is compared: a submission has key
    [k] when one of its field names trims to the non-empty [k], and has value
    [v] when a value of one of its non-blank fields trims to the non-empty
    [v]; it satisfies a queried field when it has the key and, if values are
    asked for, one of them. *)
Definition fieldKeys (values : gmap string (list string)) : gset string :=
  list_to_set (filter (λ k, k ≠ "") (TrimSpace <$> (map_to_list values).*1)).

Definition fieldValues (values : gmap string (list string)) : gset string :=
  list_to_set
    (filter (λ v, v ≠ "")
       (TrimSpace <$>
          mjoin (filter (λ kv, TrimSpace kv.1 ≠ "") (map_to_list values)).*2)).

Definition satisfies (values : gmap string (list string))
    (q : string * list string) : Prop :=
  q.1 ∈ fieldKeys values ∧
  (q.2 = [] ∨ Exists (λ v, v ∈ fieldValues values) q.2).

Global Instance satisfies_dec values q : Decision (satisfies values q).
Proof. unfold satisfies. apply _. Defined.

Definition scan (hist : list (string * gmap string (list string)))
    (order : list (string * list string)) : list string :=
  (filter (λ sub, Forall (satisfies sub.2) order) hist).*1.

(** Whether a string starts with a white-space rune. *)
Definition leadingSpace (s : string) : bool :=
  match s with
  | String b0 r0 =>
      asciiSpace b0
      || match r0 with
         | String b1 r1 =>
             isSpace2 b0 b1
             || match r1 with
                | String b2 _ => isSpace3 b0 b1 b2
                | EmptyString => false
                end
         | EmptyString => false
         end
  | EmptyString => false
  end.

(** A map whose keys are non-empty and carry no surrounding white space,
    and whose lists are not empty. *)
Definition wellKeyed (m : gmap string (list string)) : Prop :=
  ∀ k l, m !! k = Some l → TrimSpace k = k ∧ k ≠ "" ∧ l ≠ [].

(** ** Paths: [strings.HasPrefix], [strings.TrimPrefix], [strings.Split],
    [filepath.Clean] and [filepath.Join]

    [Clean] is the lexical clean-up of a slash-separated path: empty
    elements and [.] elements are dropped, an inner [..] removes the element
    before it, a [..] at the start of a rooted path is dropped and at the
    start of an unrooted path is kept; the empty result is [.], and a rooted
    result starts with a slash.  [Join] of two non-empty elements is [Clean]
    of the two with a slash between them. *)
Definition HasPrefix (s prefix : string) : bool := String.prefix prefix s.

Fixpoint dropBytes (n : nat) (s : string) : string :=
  match n, s with
  | S n, String _ r => dropBytes n r
  | _, _ => s
  end.

Definition TrimPrefix (s prefix : string) : string :=
  if HasPrefix s prefix then dropBytes (String.length prefix) s else s.

(** [strings.Split(s, "/")]. *)
Fixpoint splitSlash (s : string) : list string :=
  match s with
  | EmptyString => [""]
  | String c r =>
      if Ascii.eqb c "/" then "" :: splitSlash r
      else match splitSlash r with
           | seg :: segs => String c seg :: segs
           | [] => [String c ""]
           end
  end.

Fixpoint joinSlash (segs : list string) : string :=
  match segs with
  | [] => ""
  | [seg] => seg
  | seg :: rest => seg +:+ "/" +:+ joinSlash rest
  end.

(** One path element against the elements kept so far, last one first. *)
Definition cleanStep (rooted : bool) (out : list string) (seg : string) : list string :=
  if decide (seg = "" ∨ seg = ".") then out
  else if decide (seg = "..") then
    match out with
    | top :: rest => if decide (top = "..") then seg :: out else rest
    | [] => if rooted then [] else [seg]
    end
  else seg :: out.

Definition Clean (path : string) : string :=
  let rooted := HasPrefix path "/" in
  let segs := reverse (foldl (cleanStep rooted) [] (splitSlash path)) in
  if rooted then "/" +:+ joinSlash segs
  else if decide (segs = []) then "." else joinSlash segs.

Definition Join (dir file : string) : string := Clean (dir +:+ "/" +:+ file).

(** ** [isPathSafe] and the GET branch of [handler] *)
Definition storageFolder : string := "./forms".

Definition isPathSafe (requested : string) : bool :=
  let clean := Clean ("/" +:+ requested) in
  let expectedPrefix := "/" +:+ TrimPrefix storageFolder "./" in
  HasPrefix clean expectedPrefix.

(** The answer to a GET request: a stored file is served, or the request is
    answered 404, or the list of matching forms is rendered.  [isFile] tells
    for which paths [os.Stat] succeeds on something that is not a
    directory. *)
Inductive getResponse :=
  | ServeFile (fileOnDisk : string)
  | NotFound
  | Listing (matching : list string).

Definition handlerGet (path : string) (isFile : string → bool)
    (order : list (string * list string)) (st : store) : getResponse :=
  if HasPrefix path "/forms/" && negb (bool_decide (path = "/forms/")) then
    let trimmed := TrimPrefix path "/forms/" in
    if isPathSafe trimmed then
      let fileOnDisk := Join storageFolder (trimmed +:+ ".html") in
      if isFile fileOnDisk then ServeFile fileOnDisk else NotFound
    else NotFound
  else Listing (filesMatchingQuery st order).

(** Strings all of whose bytes pass a test. *)
Fixpoint allBytes (P : ascii → bool) (s : string) : bool :=
  match s with
  | EmptyString => true
  | String c r => P c && allBytes P r
  end.

Definition isDigit (c : ascii) : bool :=
  match c with
  | "0" | "1" | "2" | "3" | "4" | "5" | "6" | "7" | "8" | "9" => true
  | _ => false
  end%char.

Definition notSlash (c : ascii) : bool := negb (Ascii.eqb c "/").

(** ** [handler] on a sequence of requests

    A request carries what the handler reads from its environment: the clock
    reading and the outcome of the file-system calls for a POST, the
    file-system view for a GET, and the order in which its map is ranged
    over.  Any other method is answered 405. *)
Inductive request :=
  | GetReq (path : string) (isFile : string → bool)
      (order : list (string * list string))
  | PostReq (ts : Z) (fsOK : bool) (postForm : gmap string (list string))
      (order : list (string * list string))
  | OtherReq.

Inductive answer :=
  | GetAnswer (r : getResponse)
  | PostAnswer (r : response)
  | MethodNotAllowed.

Definition handler (req : request) (st : store) : store * answer :=
  match req with
  | GetReq path isFile order => (st, GetAnswer (handlerGet path isFile order st))
  | PostReq ts fsOK postForm order =>
      let r := handlerPost ts fsOK postForm order st in (r.1, PostAnswer r.2)
  | OtherReq => (st, MethodNotAllowed)
  end.

Fixpoint serve (reqs : list request) (st : store) : store * list answer :=
  match reqs with
  | [] => (st, [])
  | req :: reqs =>
      let r := handler req st in
      let rs := serve reqs r.1 in
      (rs.1, r.2 :: rs.2)
  end.

(** The order of a POST request is an order of its form. *)
Definition wellRanged (req : request) : Prop :=
  match req with
  | PostReq _ _ postForm order => ranges postForm order
  | _ => True
  end.

(** The names answered as saved. *)
Definition savedNames (answers : list answer) : list string :=
  omap (λ a, match a with PostAnswer (Saved b) => Some b | _ => None end)
       answers.

(** The POST requests that are accepted: a non-empty form whose file could
    be written. *)
Definition accepted (reqs : list request)
    : list (string * gmap string (list string)) :=
  omap (λ req, match req with
               | PostReq ts true postForm _ =>
                   if decide (size postForm = 0) then None
                   else Some (baseNameAt ts, postForm)
               | _ => None
               end)
       reqs.

(** ** The dashboard server: users, sessions and templates

    The state of pod.go: the user records, the sessions with their counter,
    the form index and the imported templates.  A user record is reached
    through one key only, so the pointer in [users] is modelled by the record
    itself. *)
Record userRec := UserRec {
  Salt : string;          (* 16 random bytes *)
  PassHash : string;      (* SHA-256 of salt and password *)
  EncContextB64 : string  (* ciphertext of the UI context, as received *)
}.

Record dashboard := Dashboard {
  users : gmap string userRec;
  sess : sessionStore;
  forms : store;
  templates : gmap string string
}.

Definition dashboardStart : dashboard :=
  Dashboard ∅ (SessionStore ∅ 1) initial ∅.

Definition withSess (d : dashboard) (ss : sessionStore) : dashboard :=
  {| users := users d; sess := ss; forms := forms d; templates := templates d |}.

Definition withUsers (d : dashboard) (us : gmap string userRec) : dashboard :=
  {| users := us; sess := sess d; forms := forms d; templates := templates d |}.

Inductive method := GET | POST | OtherMethod.

(** [getUsername]: the user of the session named by the [sid] cookie, the
    empty string when there is no cookie or no such session. *)
Definition getUsername (cookie : option string) (ss : sessionStore) : string :=
  match cookie with
  | Some sid => default "" (sessions ss !! sid)
  | None => ""
  end.

(** The session identifiers that carry a counter value below the next one. *)
Definition sessionsNumbered (ss : sessionStore) : Prop :=
  ∀ sid u, sessions ss !! sid = Some u →
    ∃ ts n : Z,
      sid = pretty ts +:+ "-" +:+ pretty n ∧ (1 ≤ n < nextSessNum ss)%Z.

Section dashboard.
(** [sha256.Sum] of a byte string and [base64.StdEncoding.EncodeToString]
    are taken as given functions. *)
Variable sha256 : string → string.
Variable base64 : string → string.

Definition hashPassword (salt password : string) : string :=
  sha256 (salt +:+ password).

(** *** [loginHandler] *)
Inductive loginReply :=
  | LoginPage (error redirect : string)
  | LoginBadForm
  | LoginRedirect (sid target : string)
  | LoginMethodNotAllowed.

Definition loginHandler (meth : method) (rawQuery : string) (formOK : bool)
    (username password redirect : string) (ts : Z)
    (d : dashboard) : dashboard * loginReply :=
  match meth with
  | GET => (d, LoginPage "" rawQuery)
  | POST =>
      if negb formOK then (d, LoginBadForm)
      else
        match users d !! username with
        | Some rec =>
            if decide (PassHash rec = hashPassword (Salt rec) password) then
              let r := newSession ts username (sess d) in
              let target :=
                if decide (redirect = "") then "/app" else "/app?" +:+ redirect in
              (withSess d r.2, LoginRedirect r.1 target)
            else (d, LoginPage "Invalid credentials" redirect)
        | None => (d, LoginPage "Invalid credentials" redirect)
        end
  | OtherMethod => (d, LoginMethodNotAllowed)
  end.

(** *** [registerHandler]; [salt] is what [genSalt] draws. *)
Inductive registerReply :=
  | RegisterPage (error : string)
  | RegisterBadForm
  | RegisterApp (sid username saltB64 encCtxB64 bypass : string)
  | RegisterMethodNotAllowed.

Definition registerHandler (meth : method) (formOK : bool)
    (username password salt : string) (ts : Z)
    (d : dashboard) : dashboard * registerReply :=
  match meth with
  | GET => (d, RegisterPage "")
  | POST =>
      if negb formOK then (d, RegisterBadForm)
      else
        match users d !! username with
        | Some _ => (d, RegisterPage "Username already taken")
        | None =>
            let rec := {| Salt := salt;
                          PassHash := hashPassword salt password;
                          EncContextB64 := "" |} in
            let d1 := withUsers d (<[username := rec]> (users d)) in
            let r := newSession ts username (sess d1) in
            (withSess d1 r.2, RegisterApp r.1 username (base64 salt) "" "0")
        end
  | OtherMethod => (d, RegisterMethodNotAllowed)
  end.

(** *** [logoutHandler]: the session of the cookie is deleted; the answer is
    a redirect to the login page in both cases. *)
Definition logoutHandler (cookie : option string) (d : dashboard) : dashboard :=
  match cookie with
  | Some sid =>
      withSess d {| sessions := delete sid (sessions (sess d));
                    nextSessNum := nextSessNum (sess d) |}
  | None => d
  end.

(** *** [appHandler] *)
Inductive appReply :=
  | AppRedirect (loginURL : string)
  | AppPage (newSid : option string) (username saltB64 encCtxB64 bypass : string).

Definition appHandler (cookie : option string) (bypass : bool)
    (rawQuery : string) (ts : Z) (d : dashboard) : dashboard * appReply :=
  let username := getUsername cookie (sess d) in
  if decide (username = "") then
    if bypass then
      let r := newSession ts "" (sess d) in
      (withSess d r.2, AppPage (Some r.1) username "" "" "true")
    else
      (d, AppRedirect (if decide (rawQuery = "") then "/login"
                       else "/login?" +:+ rawQuery))
  else
    match users d !! username with
    | Some rec =>
        (d, AppPage None username (base64 (Salt rec)) (EncContextB64 rec)
              (if bypass then "true" else "false"))
    | None =>
        (d, AppPage None username "" "" (if bypass then "true" else "false"))
    end.

(** *** [saveContextHandler]; [payload] is the decoded [enc] field, [None]
    when the body is not valid JSON. *)
Inductive saveReply := SaveOK | SaveBadJSON | SaveMethodNotAllowed.

Definition saveContextHandler (meth : method) (cookie : option string)
    (payload : option string) (d : dashboard) : dashboard * saveReply :=
  match meth with
  | POST =>
      let username := getUsername cookie (sess d) in
      if decide (username = "") then (d, SaveOK)
      else
        match payload with
        | None => (d, SaveBadJSON)
        | Some enc =>
            match users d !! username with
            | Some rec =>
                (withUsers d
                   (<[username := {| Salt := Salt rec;
                                     PassHash := PassHash rec;
                                     EncContextB64 := enc |}]> (users d)),
                 SaveOK)
            | None => (d, SaveOK)
            end
        end
  | _ => (d, SaveMethodNotAllowed)
  end.

(** *** [queryHandler] *)
Inductive queryReply :=
  | QueryUnauthorized
  | QueryBadRequest
  | QueryInternalServerError
  | QueryStored (file : string).

Definition queryHandler (cookie : option string)
    (q : gmap string (list string)) (order : list (string * list string))
    (ts : Z) (fsOK : bool) (d : dashboard) : dashboard * queryReply :=
  let username := getUsername cookie (sess d) in
  if decide (username = "") then (d, QueryUnauthorized)
  else if decide (size q = 0) then (d, QueryBadRequest)
  else
    match writeFormFile ts fsOK with
    | None => (d, QueryInternalServerError)
    | Some base =>
        ({| users := users d; sess := sess d;
            forms := indexFile base order (forms d);
            templates := templates d |},
         QueryStored base)
    end.

End dashboard.

(** *** [importHandler] and [templateFileHandler] *)
Definition quote : string := String (ascii_of_nat 34) "".
Definition newline : string := String (ascii_of_nat 10) "".

(** [fmt.Sprintf] of the template wrapper. *)
Definition wrapTemplate (filename content : string) : string :=
  "<template data-name=" +:+ quote +:+ filename +:+ quote +:+ ">" +:+ newline
  +:+ content +:+ newline +:+ "</template>".

Inductive importReply :=
  | ImportOK
  | ImportBadForm
  | ImportMissingFile
  | ImportReadError
  | ImportMethodNotAllowed.

(** [formfile] is the uploaded part, with its file name and, when it could be
    read, its content. *)
Definition importHandler (meth : method) (parseOK : bool)
    (formfile : option (string * option string))
    (d : dashboard) : dashboard * importReply :=
  match meth with
  | POST =>
      if negb parseOK then (d, ImportBadForm)
      else
        match formfile with
        | None => (d, ImportMissingFile)
        | Some (filename, None) => (d, ImportReadError)
        | Some (filename, Some content) =>
            ({| users := users d; sess := sess d; forms := forms d;
                templates := <[filename := wrapTemplate filename content]>
                               (templates d) |},
             ImportOK)
        end
  | _ => (d, ImportMethodNotAllowed)
  end.

Definition templateFileHandler (path : string) (d : dashboard) : option string :=
  let parts := splitSlash path in
  if decide (length parts < 3) then None
  else match parts !! 2 with
       | Some filename => templates d !! filename
       | None => None
       end.

Section dashboard_requests.
Variable sha256 : string → string.
Variable base64 : string → string.

(** *** Sequences of requests

    A request names its handler and carries what the handler reads: the
    method, the cookie, the decoded form or body, the clock reading and the
    outcome of the file-system calls. *)
Inductive dreq :=
  | ReqLogin (meth : method) (rawQuery : string) (formOK : bool)
      (username password redirect : string) (ts : Z)
  | ReqRegister (meth : method) (formOK : bool)
      (username password salt : string) (ts : Z)
  | ReqLogout (cookie : option string)
  | ReqApp (cookie : option string) (bypass : bool) (rawQuery : string) (ts : Z)
  | ReqSaveContext (meth : method) (cookie : option string)
      (payload : option string)
  | ReqQuery (cookie : option string) (q : gmap string (list string))
      (order : list (string * list string)) (ts : Z) (fsOK : bool)
  | ReqImport (meth : method) (parseOK : bool)
      (formfile : option (string * option string))
  | ReqTemplate (path : string).

Definition dstep (d : dashboard) (req : dreq) : dashboard :=
  match req with
  | ReqLogin meth rawQuery formOK username password redirect ts =>
      (loginHandler sha256 meth rawQuery formOK username password redirect ts d).1
  | ReqRegister meth formOK username password salt ts =>
      (registerHandler sha256 base64 meth formOK username password salt ts d).1
  | ReqLogout cookie => logoutHandler cookie d
  | ReqApp cookie bypass rawQuery ts =>
      (appHandler base64 cookie bypass rawQuery ts d).1
  | ReqSaveContext meth cookie payload =>
      (saveContextHandler meth cookie payload d).1
  | ReqQuery cookie q order ts fsOK => (queryHandler cookie q order ts fsOK d).1
  | ReqImport meth parseOK formfile => (importHandler meth parseOK formfile d).1
  | ReqTemplate _ => d
  end.

Definition drun (reqs : list dreq) (d : dashboard) : dashboard :=
  foldl dstep d reqs.

(** The order of a query request is an order of its map. *)
Definition queryRanged (req : dreq) : Prop :=
  match req with
  | ReqQuery _ q order _ _ => ranges q order
  | _ => True
  end.

End dashboard_requests.

(** *** [templatesManifestHandler]

    The names are collected by ranging over [templates]; [order] is the
    order in which the map is visited. *)
Definition templatesManifestHandler (order : list (string * string)) : list string :=
  order.*1.

(** The file names of the uploads that are accepted. *)
Definition imported (reqs : list dreq) : list string :=
  omap (λ req, match req with
               | ReqImport POST true (Some (filename, Some _)) => Some filename
               | _ => None
               end)
       reqs.

(** * Properties *)

(** ** White space *)
Section trim.

Lemma isSpace2_lead b0 b1 :
  isSpace2 b0 b1 = true → asciiSpace b0 = false.
Proof.
  unfold isSpace2, asciiSpace. intros H.
  apply andb_prop in H as [H0 _]. apply N.eqb_eq in H0. by rewrite H0.
Qed.

Lemma isSpace3_lead b0 b1 b2 :
  isSpace3 b0 b1 b2 = true → asciiSpace b0 = false ∧ isSpace2 b0 b1 = false.
Proof.
  unfold isSpace3, isSpace2, asciiSpace. intros H.
  destruct (N.eq_dec (code b0) 0xE1%N) as [->|?]; [done|].
  destruct (N.eq_dec (code b0) 0xE2%N) as [->|?]; [done|].
  destruct (N.eq_dec (code b0) 0xE3%N) as [->|?]; [done|].
  exfalso. revert H.
  rewrite !(proj2 (N.eqb_neq (code b0) _)) by done. done.
Qed.

Lemma trimLeft_whitespace s : whitespace s → trimLeft s = "".
Proof.
  induction 1 as [|b s Hb _ IH|b0 b1 s Hb _ IH|b0 b1 b2 s Hb _ IH]; simpl.
  - done.
  - by rewrite Hb.
  - by rewrite (isSpace2_lead _ _ Hb), Hb.
  - destruct (isSpace3_lead _ _ _ Hb) as [-> ->]. by rewrite Hb.
Qed.

Lemma TrimSpace_whitespace s : whitespace s → TrimSpace s = "".
Proof. intros H. unfold TrimSpace. by rewrite (trimLeft_whitespace s H). Qed.

Lemma app_String b s t : String b s +:+ t = String b (s +:+ t).
Proof. reflexivity. Qed.

Lemma whitespace_app s t : whitespace s → whitespace t → whitespace (s +:+ t).
Proof.
  intros Hs Ht. induction Hs as [|b s Hb _ IH|b0 b1 s Hb _ IH|b0 b1 b2 s Hb _ IH];
    rewrite ?app_String.
  - done.
  - by apply ws_ascii.
  - by apply ws_two.
  - by apply ws_three.
Qed.

(** [trimLeft] removes a prefix that consists of white space. *)
Lemma trimLeft_split_le n s :
  String.length s ≤ n → ∃ w, whitespace w ∧ s = w +:+ trimLeft s.
Proof.
  revert s. induction n as [|n IH]; intros s Hlen.
  { destruct s; [|simpl in Hlen; lia]. exists "". split; [apply ws_nil|done]. }
  destruct s as [|b0 r0]; [exists ""; split; [apply ws_nil|done]|].
  simpl in Hlen. cbn [trimLeft]. destruct (asciiSpace b0) eqn:H1.
  { destruct (IH r0) as (w & Hw & Heq); [lia|].
    exists (String b0 w). split; [by apply ws_ascii|].
    by rewrite app_String, <- Heq. }
  destruct r0 as [|b1 r1]; [exists ""; split; [apply ws_nil|done]|].
  simpl in Hlen. destruct (isSpace2 b0 b1) eqn:H2.
  { destruct (IH r1) as (w & Hw & Heq); [lia|].
    exists (String b0 (String b1 w)). split; [by apply ws_two|].
    by rewrite !app_String, <- Heq. }
  destruct r1 as [|b2 r2]; [exists ""; split; [apply ws_nil|done]|].
  simpl in Hlen. destruct (isSpace3 b0 b1 b2) eqn:H3.
  { destruct (IH r2) as (w & Hw & Heq); [lia|].
    exists (String b0 (String b1 (String b2 w))). split; [by apply ws_three|].
    by rewrite !app_String, <- Heq. }
  exists "". split; [apply ws_nil|done].
Qed.

(** [trimLeftRev] on the reversed string removes a suffix of the string that
    consists of white space. *)
Lemma trimLeftRev_split_le n s acc :
  String.length s ≤ n → whitespace acc →
  ∃ w, whitespace w ∧ String.rev_app s acc = String.rev_app (trimLeftRev s) w.
Proof.
  revert s acc. induction n as [|n IH]; intros s acc Hlen Hacc.
  { destruct s; [|simpl in Hlen; lia]. by exists acc. }
  destruct s as [|b0 r0]; [by exists acc|].
  simpl in Hlen. cbn [trimLeftRev]. destruct (asciiSpace b0) eqn:H1.
  { apply (IH r0 (String b0 acc)); [lia|by apply ws_ascii]. }
  destruct r0 as [|b1 r1]; [by exists acc|].
  simpl in Hlen. destruct (isSpace2 b1 b0) eqn:H2.
  { apply (IH r1 (String b1 (String b0 acc))); [lia|by apply ws_two]. }
  destruct r1 as [|b2 r2]; [by exists acc|].
  simpl in Hlen. destruct (isSpace3 b2 b1 b0) eqn:H3.
  { apply (IH r2 (String b2 (String b1 (String b0 acc))));
      [lia|by apply ws_three]. }
  by exists acc.
Qed.

Lemma rev_app_length s acc :
  String.length (String.rev_app s acc) = String.length s + String.length acc.
Proof.
  revert acc. induction s as [|b s IH]; intros acc; simpl; [done|].
  rewrite IH. simpl. lia.
Qed.

Lemma rev_app_rev_app s a b :
  String.rev_app (String.rev_app s a) b = String.rev_app a (s +:+ b).
Proof.
  revert a b. induction s as [|c s IH]; intros a b; simpl; [done|].
  by rewrite IH.
Qed.

Lemma rev_rev s : String.rev (String.rev s) = s.
Proof.
  unfold String.rev. rewrite rev_app_rev_app. simpl.
  induction s as [|c s IH]; [done|]. by rewrite app_String, IH.
Qed.

Lemma trimRight_empty s : trimRight s = "" → whitespace s.
Proof.
  unfold trimRight. intros H.
  assert (trimLeftRev (String.rev s) = "") as Hrest.
  { apply (f_equal String.length) in H. unfold String.rev in H at 1.
    rewrite rev_app_length in H. simpl in H.
    destruct (trimLeftRev (String.rev s)); [done|simpl in H; lia]. }
  destruct (trimLeftRev_split_le _ (String.rev s) "" (le_n _) ws_nil)
    as (w & Hw & Heq).
  rewrite Hrest in Heq. simpl in Heq.
  fold (String.rev (String.rev s)) in Heq. rewrite rev_rev in Heq. by subst.
Qed.

(** The strings that [TrimSpace] empties are those that consist of white
    space only. *)
Lemma TrimSpace_empty_iff s : TrimSpace s = "" ↔ whitespace s.
Proof.
  split; [|apply TrimSpace_whitespace].
  unfold TrimSpace. intros H%trimRight_empty.
  destruct (trimLeft_split_le _ s (le_n _)) as (w & Hw & Heq).
  rewrite Heq. by apply whitespace_app.
Qed.

End trim.

(** ** The index maps *)
Section index.
Implicit Types (m : gmap string (list string)) (st : store).
Implicit Types (k v fn baseName : string) (vs : list string).
Implicit Types (order : list (string * list string)).

Lemma index_insert m k l k' :
  index (<[k := l]> m) k' = if decide (k = k') then l else index m k'.
Proof. unfold index. rewrite lookup_insert. by case_decide. Qed.

Lemma index_empty k : index ∅ k = [].
Proof. unfold index. by rewrite lookup_empty. Qed.

Lemma index_None m k : m !! k = None → index m k = [].
Proof. unfold index. by intros ->. Qed.

(** *** [indexValue] and the inner loop *)
Lemma elem_of_indexValue baseName m v fn k :
  fn ∈ index (indexValue baseName m v) k ↔
  fn ∈ index m k ∨ (fn = baseName ∧ k = TrimSpace v ∧ TrimSpace v ≠ "").
Proof.
  unfold indexValue. case_decide as Hv.
  - naive_solver.
  - rewrite index_insert. case_decide as Hk.
    + subst k. rewrite elem_of_app, list_elem_of_singleton. naive_solver.
    + naive_solver.
Qed.

Lemma elem_of_indexValues baseName vs m fn k :
  fn ∈ index (foldl (indexValue baseName) m vs) k ↔
  fn ∈ index m k ∨
  (fn = baseName ∧ ∃ v, v ∈ vs ∧ k = TrimSpace v ∧ TrimSpace v ≠ "").
Proof.
  revert m. induction vs as [|v vs IH]; intros m; simpl.
  - split; [auto|]. intros [?|(_ & v & Hv & _)]; [done|]. by apply elem_of_nil in Hv.
  - rewrite IH, elem_of_indexValue. split.
    + intros [[?|(? & ? & ?)]|(? & v' & ? & ? & ?)]; eauto 8 using list_elem_of_here, list_elem_of_further.
    + intros [?|(? & v' & [->|?]%elem_of_cons & ? & ?)]; eauto 8.
Qed.

(** *** [indexEntry] and the outer loop *)
Lemma indexEntry_storedFiles baseName st kv :
  storedFiles (indexEntry baseName st kv) = storedFiles st.
Proof. unfold indexEntry. by case_decide. Qed.

Lemma elem_of_indexEntry_key baseName st kv fn k :
  fn ∈ index (keyToFiles (indexEntry baseName st kv)) k ↔
  fn ∈ index (keyToFiles st) k ∨
  (fn = baseName ∧ k = TrimSpace kv.1 ∧ TrimSpace kv.1 ≠ "").
Proof.
  unfold indexEntry. case_decide as Hk; simpl.
  - naive_solver.
  - rewrite index_insert. case_decide as Hk'.
    + subst k. rewrite elem_of_app, list_elem_of_singleton. naive_solver.
    + naive_solver.
Qed.

Lemma elem_of_indexEntry_value baseName st kv fn v :
  fn ∈ index (valueToFiles (indexEntry baseName st kv)) v ↔
  fn ∈ index (valueToFiles st) v ∨
  (fn = baseName ∧ TrimSpace kv.1 ≠ "" ∧
   ∃ v', v' ∈ kv.2 ∧ v = TrimSpace v' ∧ TrimSpace v' ≠ "").
Proof.
  unfold indexEntry. case_decide as Hk; simpl.
  - naive_solver.
  - rewrite elem_of_indexValues. naive_solver.
Qed.

Lemma foldl_indexEntry_storedFiles baseName order st :
  storedFiles (foldl (indexEntry baseName) st order) = storedFiles st.
Proof.
  revert st. induction order as [|kv order IH]; intros st; simpl; [done|].
  by rewrite IH, indexEntry_storedFiles.
Qed.

Lemma elem_of_foldl_indexEntry_key baseName order st fn k :
  fn ∈ index (keyToFiles (foldl (indexEntry baseName) st order)) k ↔
  fn ∈ index (keyToFiles st) k ∨
  (fn = baseName ∧ ∃ kv, kv ∈ order ∧ k = TrimSpace kv.1 ∧ TrimSpace kv.1 ≠ "").
Proof.
  revert st. induction order as [|kv order IH]; intros st; simpl.
  - split; [auto|]. intros [?|(_ & kv & Hkv & _)]; [done|]. by apply elem_of_nil in Hkv.
  - rewrite IH, elem_of_indexEntry_key. split.
    + intros [[?|(? & ? & ?)]|(? & kv' & ? & ? & ?)]; eauto 8 using list_elem_of_here, list_elem_of_further.
    + intros [?|(? & kv' & [->|?]%elem_of_cons & ? & ?)]; eauto 8.
Qed.

Lemma elem_of_foldl_indexEntry_value baseName order st fn v :
  fn ∈ index (valueToFiles (foldl (indexEntry baseName) st order)) v ↔
  fn ∈ index (valueToFiles st) v ∨
  (fn = baseName ∧ ∃ kv v', kv ∈ order ∧ TrimSpace kv.1 ≠ "" ∧
     v' ∈ kv.2 ∧ v = TrimSpace v' ∧ TrimSpace v' ≠ "").
Proof.
  revert st. induction order as [|kv order IH]; intros st; simpl.
  - split; [auto|]. intros [?|(_ & kv & ? & Hkv & _)]; [done|]. by apply elem_of_nil in Hkv.
  - rewrite IH, elem_of_indexEntry_value. split.
    + intros [[?|(? & ? & v' & ? & ? & ?)]|(? & kv' & v' & ? & ? & ? & ? & ?)];
        eauto 12 using list_elem_of_here, list_elem_of_further.
    + intros [?|(? & kv' & v' & [->|?]%elem_of_cons & ? & ? & ? & ?)]; eauto 12.
Qed.

(** *** [indexFile] *)
Lemma indexFile_storedFiles baseName order st :
  storedFiles (indexFile baseName order st) = storedFiles st ++ [baseName].
Proof. unfold indexFile. by rewrite foldl_indexEntry_storedFiles. Qed.

Lemma elem_of_indexFile_key baseName order st fn k :
  fn ∈ index (keyToFiles (indexFile baseName order st)) k ↔
  fn ∈ index (keyToFiles st) k ∨
  (fn = baseName ∧ ∃ kv, kv ∈ order ∧ k = TrimSpace kv.1 ∧ TrimSpace kv.1 ≠ "").
Proof. unfold indexFile. by rewrite elem_of_foldl_indexEntry_key. Qed.

Lemma elem_of_indexFile_value baseName order st fn v :
  fn ∈ index (valueToFiles (indexFile baseName order st)) v ↔
  fn ∈ index (valueToFiles st) v ∨
  (fn = baseName ∧ ∃ kv v', kv ∈ order ∧ TrimSpace kv.1 ≠ "" ∧
     v' ∈ kv.2 ∧ v = TrimSpace v' ∧ TrimSpace v' ≠ "").
Proof. unfold indexFile. by rewrite elem_of_foldl_indexEntry_value. Qed.

End index.

(** ** The matcher *)
Section matcher.
Implicit Types (st : store) (fn qk : string) (qvs : list string).
Implicit Types (order : list (string * list string)) (cand tmp : gset string).

Lemma elem_of_keySet st qk fn :
  fn ∈ keySet st qk ↔ fn ∈ index (keyToFiles st) qk.
Proof.
  unfold keySet. generalize (index (keyToFiles st) qk). intros l.
  cut (∀ acc : gset string,
         fn ∈ foldl (λ tmp fn, {[fn]} ∪ tmp) acc l ↔ fn ∈ acc ∨ fn ∈ l).
  { intros H. rewrite H. set_solver. }
  induction l as [|x l IH]; intros acc; simpl.
  - set_solver.
  - rewrite IH. set_solver.
Qed.

Lemma elem_of_collect tmp (l : list string) (acc : gset string) fn :
  fn ∈ foldl (λ filtered fn,
                if decide (fn ∈ tmp) then {[fn]} ∪ filtered else filtered)
             acc l ↔
  fn ∈ acc ∨ (fn ∈ tmp ∧ fn ∈ l).
Proof.
  revert acc. induction l as [|x l IH]; intros acc; simpl.
  - set_solver.
  - rewrite IH. case_decide; set_solver.
Qed.

Lemma elem_of_filterValues st tmp qvs fn :
  fn ∈ filterValues st tmp qvs ↔
  fn ∈ tmp ∧ ∃ v, v ∈ qvs ∧ fn ∈ index (valueToFiles st) v.
Proof.
  unfold filterValues.
  cut (∀ acc : gset string,
         fn ∈ foldl (λ filtered val,
                       foldl (λ filtered fn,
                                if decide (fn ∈ tmp) then {[fn]} ∪ filtered
                                else filtered)
                             filtered (index (valueToFiles st) val))
                    acc qvs ↔
         fn ∈ acc ∨ (fn ∈ tmp ∧ ∃ v, v ∈ qvs ∧ fn ∈ index (valueToFiles st) v)).
  { intros H. rewrite H. set_solver. }
  induction qvs as [|val qvs IH]; intros acc; simpl.
  - split; [auto|]. intros [?|(_ & v & Hv & _)]; [done|]. by apply elem_of_nil in Hv.
  - rewrite IH, elem_of_collect. split.
    + intros [[?|[? ?]]|(? & v & ? & ?)];
        eauto 8 using list_elem_of_here, list_elem_of_further.
    + intros [?|(? & v & [->|?]%elem_of_cons & ?)]; eauto 8.
Qed.

Lemma elem_of_candidates st qk qvs fn :
  fn ∈ candidates st qk qvs ↔
  fn ∈ index (keyToFiles st) qk ∧
  (qvs = [] ∨ ∃ v, v ∈ qvs ∧ fn ∈ index (valueToFiles st) v).
Proof.
  unfold candidates. case_decide as Hlen.
  - rewrite elem_of_filterValues, elem_of_keySet.
    destruct qvs; [simpl in Hlen; lia|]. naive_solver.
  - rewrite elem_of_keySet.
    destruct qvs; [naive_solver|simpl in Hlen; lia].
Qed.

(** The code's candidate set is the one the design document describes. *)
Lemma candidates_spec st qk qvs :
  candidates st qk qvs = specCandidates st qk qvs.
Proof.
  apply set_eq. intros fn. rewrite elem_of_candidates.
  unfold specCandidates, keyIndex. destruct qvs as [|v qvs].
  - rewrite elem_of_list_to_set. naive_solver.
  - rewrite elem_of_intersection, elem_of_list_to_set, elem_of_union_list.
    split.
    + intros [? [?|(v' & ? & ?)]]; [done|]. split; [done|].
      exists (valueIndex st v'). split; [by apply list_elem_of_fmap_2|].
      unfold valueIndex. by rewrite elem_of_list_to_set.
    + intros [? (X & (v' & -> & ?)%list_elem_of_fmap & HX)]. split; [done|].
      right. exists v'. split; [done|].
      unfold valueIndex in HX. by rewrite elem_of_list_to_set in HX.
Qed.

Lemma elem_of_matchLoop_false st order cand fn :
  fn ∈ matchLoop st false cand order ↔
  fn ∈ cand ∧ Forall (λ q, fn ∈ candidates st q.1 q.2) order.
Proof.
  revert cand. induction order as [|[qk qvs] order IH]; intros cand; simpl.
  - split; [intros ?; split; [done|constructor]|by intros [? _]].
  - rewrite Forall_cons. simpl. case_decide as Hsize.
    + apply size_empty_inv in Hsize.
      split; [intros Hfn; by apply Hsize in Hfn|].
      intros (? & ? & _). exfalso.
      apply (not_elem_of_empty (C:=gset string) fn), Hsize, elem_of_filter.
      done.
    + rewrite IH, elem_of_filter. tauto.
Qed.

Lemma elem_of_matchLoop_true st order cand fn :
  order ≠ [] →
  fn ∈ matchLoop st true cand order ↔
  Forall (λ q, fn ∈ candidates st q.1 q.2) order.
Proof.
  destruct order as [|[qk qvs] order]; [done|]. intros _. simpl.
  rewrite Forall_cons. simpl. case_decide as Hsize.
  - apply size_empty_inv in Hsize.
    split; [intros Hfn; by apply Hsize in Hfn|].
    intros [Hfn _]. apply Hsize in Hfn. by apply not_elem_of_empty in Hfn.
  - by rewrite elem_of_matchLoop_false.
Qed.

Lemma filesMatchingQuery_nil st : filesMatchingQuery st [] = storedFiles st.
Proof. done. Qed.

Lemma filesMatchingQuery_filter st order :
  order ≠ [] →
  filesMatchingQuery st order =
  filter (λ fn, Forall (λ q, fn ∈ candidates st q.1 q.2) order) (storedFiles st).
Proof.
  intros Hne. unfold filesMatchingQuery. case_decide as Hlen.
  - destruct order; [done|discriminate Hlen].
  - apply list_filter_iff. intros fn. by apply elem_of_matchLoop_true.
Qed.

Lemma elem_of_filesMatchingQuery st order fn :
  order ≠ [] →
  fn ∈ filesMatchingQuery st order ↔
  fn ∈ storedFiles st ∧ Forall (λ q, fn ∈ candidates st q.1 q.2) order.
Proof.
  intros Hne. rewrite filesMatchingQuery_filter, list_elem_of_filter by done.
  tauto.
Qed.

Lemma filesMatchingQuery_sublist st order :
  sublist (filesMatchingQuery st order) (storedFiles st).
Proof.
  destruct order as [|q order]; [done|].
  rewrite filesMatchingQuery_filter by done. apply sublist_filter.
Qed.

(** The result does not depend on the order in which the query is ranged
    over. *)
Lemma filesMatchingQuery_perm st order order' :
  order ≡ₚ order' → filesMatchingQuery st order = filesMatchingQuery st order'.
Proof.
  intros Hperm. destruct order as [|q order].
  - apply Permutation_nil_l in Hperm. by subst.
  - assert (order' ≠ []) as Hne'.
    { intros ->. by apply Permutation_nil_r in Hperm. }
    rewrite !filesMatchingQuery_filter by done.
    apply list_filter_iff. intros fn. rewrite !Forall_forall.
    split; intros H x Hx; apply H; [by rewrite Hperm|by rewrite <- Hperm].
Qed.

End matcher.

(** ** Ranging over a map, and histories *)
Section histories.
Implicit Types (st : store) (fn k v baseName : string) (vs : list string).
Implicit Types (values query : gmap string (list string)).
Implicit Types (order : list (string * list string)).
Implicit Types (hist : list (string * gmap string (list string))).

Lemma ranges_map_to_list values : ranges values (map_to_list values).
Proof. unfold ranges. reflexivity. Qed.

Lemma elem_of_ranges values order k vs :
  ranges values order → (k, vs) ∈ order ↔ values !! k = Some vs.
Proof. intros Hr. unfold ranges in Hr. by rewrite Hr, elem_of_map_to_list. Qed.

Lemma ranges_empty order : ranges ∅ order → order = [].
Proof.
  unfold ranges. rewrite map_to_list_empty. by intros ?%Permutation_nil_r.
Qed.

Lemma ranges_nil values : ranges values [] → values = ∅.
Proof.
  unfold ranges. intros H. symmetry in H. apply Permutation_nil_r in H.
  by apply map_to_list_empty_iff.
Qed.

Lemma ranges_singleton k vs order : ranges {[k := vs]} order → order = [(k, vs)].
Proof.
  unfold ranges. rewrite map_to_list_singleton.
  by intros ?%Permutation_singleton_r.
Qed.

Lemma ranges_delete values order order' k vs :
  values !! k = Some vs → ranges values order → ranges (delete k values) order' →
  order ≡ₚ (k, vs) :: order'.
Proof.
  unfold ranges. intros Hk -> ->.
  rewrite <- (insert_delete_id values k vs) at 1 by done.
  apply map_to_list_insert, lookup_delete_eq.
Qed.

Lemma ranges_fun values order1 order2 :
  ranges values order1 → ranges values order2 → order1 ≡ₚ order2.
Proof. unfold ranges. by intros -> ->. Qed.

Lemma built_storedFiles hist st : built hist st → storedFiles st = hist.*1.
Proof.
  induction 1 as [|hist st baseName values order _ IH _]; [done|].
  by rewrite indexFile_storedFiles, fmap_snoc, IH.
Qed.

(** Every file name in either map is a stored file. *)
Lemma built_key_stored hist st k fn :
  built hist st → fn ∈ index (keyToFiles st) k → fn ∈ storedFiles st.
Proof.
  intros Hb. revert k fn.
  induction Hb as [|hist st baseName values order _ IH _]; intros k fn.
  - simpl. rewrite index_empty. by intros ?%elem_of_nil.
  - rewrite elem_of_indexFile_key, indexFile_storedFiles, elem_of_app,
      list_elem_of_singleton.
    intros [?|[? _]]; eauto.
Qed.

Lemma built_value_stored hist st v fn :
  built hist st → fn ∈ index (valueToFiles st) v → fn ∈ storedFiles st.
Proof.
  intros Hb. revert v fn.
  induction Hb as [|hist st baseName values order _ IH _]; intros v fn.
  - simpl. rewrite index_empty. by intros ?%elem_of_nil.
  - rewrite elem_of_indexFile_value, indexFile_storedFiles, elem_of_app,
      list_elem_of_singleton.
    intros [?|[? _]]; eauto.
Qed.

(** The index entries of a recorded call: its trimmed, non-blank field names
    and, under such a name, its trimmed, non-blank values. *)
Lemma built_indexed hist st baseName values k vs :
  built hist st → (baseName, values) ∈ hist → values !! k = Some vs →
  TrimSpace k ≠ "" →
  baseName ∈ index (keyToFiles st) (TrimSpace k) ∧
  ∀ v, v ∈ vs → TrimSpace v ≠ "" →
       baseName ∈ index (valueToFiles st) (TrimSpace v).
Proof.
  intros Hb. revert baseName values k vs.
  induction Hb as [|hist st b values' order _ IH Hr];
    intros baseName values k vs Hin Hk Hne.
  - by apply elem_of_nil in Hin.
  - apply elem_of_app in Hin as [Hin|Hin%list_elem_of_singleton].
    + destruct (IH _ _ _ _ Hin Hk Hne) as [IHk IHv]. split.
      * apply elem_of_indexFile_key. by left.
      * intros v Hv Hvne. apply elem_of_indexFile_value. left. by apply IHv.
    + injection Hin as -> ->.
      apply (elem_of_ranges _ _ _ _ Hr) in Hk. split.
      * apply elem_of_indexFile_key. right. split; [done|].
        by exists (k, vs).
      * intros v Hv Hvne. apply elem_of_indexFile_value. right.
        split; [done|]. by exists (k, vs), v.
Qed.

End histories.

(** * The claims *)
Section claims.
Implicit Types (st : store) (fn k v baseName : string) (vs V : list string).
Implicit Types (values query : gmap string (list string)).
Implicit Types (order : list (string * list string)).
Implicit Types (hist : list (string * gmap string (list string))).

Lemma scenario_built : built [("A", formA); ("B", formB)] scenario.
Proof.
  apply (built_snoc [("A", formA)] _ "B" formB); [|apply ranges_map_to_list].
  apply (built_snoc [] _ "A" formA); [|apply ranges_map_to_list].
  apply built_nil.
Qed.

(** Claim C4.  The empty query returns exactly the stored file names, in
    insertion order: whatever the state, [filesMatchingQuery] on a query with
    no field is [storedFiles]. *)
Theorem empty_query_lists_all st order :
  ranges ∅ order → filesMatchingQuery st order = storedFiles st.
Proof. intros ->%ranges_empty. apply filesMatchingQuery_nil. Qed.

Lemma empty_query_lists_all_witness :
  ranges ∅ [] ∧ filesMatchingQuery scenario [] = storedFiles scenario.
Proof.
  assert (ranges ∅ []) as Hr by (unfold ranges; by rewrite map_to_list_empty).
  split; [exact Hr|]. exact (empty_query_lists_all scenario [] Hr).
Defined.

(** Claim C6.  Whatever the query and the state, the result of
    [filesMatchingQuery] lists its file names in the order of [storedFiles],
    oldest first: it is [storedFiles] with some entries left out. *)
Theorem match_in_insertion_order st order :
  sublist (filesMatchingQuery st order) (storedFiles st).
Proof. apply filesMatchingQuery_sublist. Qed.

(** Claim C8.  A query that names a field absent from the key map, or a
    field all of whose accepted values are absent from the value map, is
    answered with the empty result: the candidate set of that field is
    empty and so is the intersection.  A value absent from the value map
    stands for the empty set of file names. *)
Theorem unknown_field_matches_nothing st query order k V :
  ranges query order →
  query !! k = Some V →
  keyToFiles st !! k = None ∨
    (V ≠ [] ∧ ∀ v, v ∈ V → valueToFiles st !! v = None) →
  specCandidates st k V = ∅ ∧ filesMatchingQuery st order = [] ∧
  ∀ v, valueToFiles st !! v = None → valueIndex st v = ∅.
Proof.
  intros Hr Hk Hunknown.
  assert (∀ fn, fn ∉ candidates st k V) as Hnone.
  { intros fn [Hkey Hval]%elem_of_candidates.
    destruct Hunknown as [HK|[HV Hvals]].
    - rewrite (index_None _ _ HK) in Hkey. by apply elem_of_nil in Hkey.
    - destruct Hval as [?|(v & Hv & Hfn)]; [done|].
      rewrite (index_None _ _ (Hvals v Hv)) in Hfn. by apply elem_of_nil in Hfn. }
  split; [|split].
  - rewrite <- candidates_spec. apply set_eq. intros fn.
    split; [by intros ?%Hnone|by intros ?%not_elem_of_empty].
  - apply (elem_of_ranges _ _ _ _ Hr) in Hk.
    assert (order ≠ []) as Hne by (intros ->; by apply elem_of_nil in Hk).
    apply elem_of_nil_inv. intros fn [_ Hall]%elem_of_filesMatchingQuery; [|done].
    rewrite Forall_forall in Hall. by apply Hall, Hnone in Hk.
  - intros v Hv. unfold valueIndex. by rewrite (index_None _ _ Hv).
Qed.

Lemma unknown_field_matches_nothing_witness :
  specCandidates scenario "nonexistent" ["x"] = ∅ ∧
  filesMatchingQuery scenario [("nonexistent", ["x"])] = [] ∧
  ∀ v, valueToFiles scenario !! v = None → valueIndex scenario v = ∅.
Proof.
  apply (unknown_field_matches_nothing scenario {["nonexistent" := ["x"]]}
           [("nonexistent", ["x"])] "nonexistent" ["x"]).
  - unfold ranges. by rewrite map_to_list_singleton.
  - apply lookup_singleton_eq.
  - left. vm_compute. reflexivity.
Defined.

(** Claim C10.  When the file names passed to [indexFile] are pairwise
    distinct, the result of [filesMatchingQuery] holds each file name at most
    once, also when the lists in the two maps hold a name several times. *)
Theorem match_has_no_duplicates hist st order :
  built hist st → NoDup hist.*1 → NoDup (filesMatchingQuery st order).
Proof.
  intros Hb Hnd.
  eapply sublist_NoDup; [|apply filesMatchingQuery_sublist].
  by rewrite (built_storedFiles _ _ Hb).
Qed.

Lemma match_has_no_duplicates_witness :
  index (valueToFiles dupStore) "x" = ["form_1"; "form_1"; "form_1"] ∧
  NoDup (filesMatchingQuery dupStore [("a", ["x"])]).
Proof.
  split; [vm_compute; reflexivity|].
  apply (match_has_no_duplicates [("form_1", formDup)] dupStore).
  - apply (built_snoc [] _ "form_1" formDup); [|apply ranges_map_to_list].
    apply built_nil.
  - apply NoDup_singleton.
Defined.

(** Claim C5.  For a query with at least one field, on a state built by
    [indexFile], the file names returned are exactly those that lie in the
    candidate set of every queried field; if one candidate set is empty the
    result is empty; and the result is the same for every order in which the
    query's fields are visited. *)
Theorem match_is_intersection hist st query order :
  built hist st →
  query ≠ ∅ →
  ranges query order →
  (∀ fn, fn ∈ filesMatchingQuery st order ↔
         ∀ k V, query !! k = Some V → fn ∈ specCandidates st k V) ∧
  ((∃ k V, query !! k = Some V ∧ specCandidates st k V = ∅) →
   filesMatchingQuery st order = []) ∧
  (∀ order', ranges query order' →
             filesMatchingQuery st order' = filesMatchingQuery st order).
Proof.
  intros Hb Hq Hr.
  assert (order ≠ []) as Hne by (intros ->; by apply ranges_nil in Hr).
  assert (∀ fn, fn ∈ filesMatchingQuery st order ↔
                ∀ k V, query !! k = Some V → fn ∈ specCandidates st k V) as Hchar.
  { intros fn. rewrite elem_of_filesMatchingQuery, Forall_forall by done. split.
    - intros [_ Hall] k V Hk. rewrite <- candidates_spec.
      apply (elem_of_ranges _ _ _ _ Hr) in Hk. apply (Hall _ Hk).
    - intros Hall. split.
      + destruct order as [|[k0 V0] order0]; [done|].
        assert (query !! k0 = Some V0) as Hk0
          by (apply (elem_of_ranges _ _ _ _ Hr), list_elem_of_here).
        apply Hall in Hk0. rewrite <- candidates_spec in Hk0.
        apply elem_of_candidates in Hk0 as [Hkey _].
        by apply (built_key_stored _ _ _ _ Hb) in Hkey.
      + intros [k V] Hin. simpl. rewrite candidates_spec.
        by apply Hall, (elem_of_ranges _ _ _ _ Hr). }
  split; [exact Hchar|split].
  - intros (k & V & Hk & Hempty). apply elem_of_nil_inv. intros fn Hfn.
    pose proof (proj1 (Hchar fn) Hfn k V Hk) as Hin. rewrite Hempty in Hin.
    by apply not_elem_of_empty in Hin.
  - intros order' Hr'. apply filesMatchingQuery_perm.
    by apply (ranges_fun query).
Qed.

Lemma match_is_intersection_witness :
  (∀ fn, fn ∈ filesMatchingQuery scenario (map_to_list queryRedL) ↔
         ∀ k V, queryRedL !! k = Some V → fn ∈ specCandidates scenario k V) ∧
  ((∃ k V, queryRedL !! k = Some V ∧ specCandidates scenario k V = ∅) →
   filesMatchingQuery scenario (map_to_list queryRedL) = []) ∧
  (∀ order', ranges queryRedL order' →
             filesMatchingQuery scenario order' =
             filesMatchingQuery scenario (map_to_list queryRedL)).
Proof.
  apply (match_is_intersection [("A", formA); ("B", formB)] scenario queryRedL).
  - apply scenario_built.
  - apply insert_non_empty.
  - apply ranges_map_to_list.
Defined.

(** Claim C2.  A queried field [k] with a non-empty list [V] of accepted
    values keeps, of the file names the other queried fields allow, exactly
    those listed under [k] in the key map and under at least one value of
    [V] in the value map, which is not scoped to [k].  So on a state built by
    [indexFile], a file that has field [k1] and carries [v] under any of its
    fields is returned for the query that asks for [v] under [k1]. *)
Theorem value_match_is_global :
  (∀ st query order order' k V,
     query !! k = Some V → V ≠ [] →
     ranges query order → ranges (delete k query) order' →
     filesMatchingQuery st order =
     filter (λ fn, fn ∈ index (keyToFiles st) k ∧
                   Exists (λ v, fn ∈ index (valueToFiles st) v) V)
            (filesMatchingQuery st order')) ∧
  (∀ hist st baseName values k1 vs1 k2 vs2 v order,
     built hist st → (baseName, values) ∈ hist →
     values !! k1 = Some vs1 → TrimSpace k1 ≠ "" →
     values !! k2 = Some vs2 → TrimSpace k2 ≠ "" →
     v ∈ vs2 → TrimSpace v ≠ "" →
     ranges {[ TrimSpace k1 := [TrimSpace v] ]} order →
     baseName ∈ filesMatchingQuery st order).
Proof.
  split.
  - intros st query order order' k V Hk HV Hr Hr'.
    rewrite (filesMatchingQuery_perm _ _ _ (ranges_delete _ _ _ _ _ Hk Hr Hr')).
    rewrite filesMatchingQuery_filter by done.
    destruct order' as [|q order'].
    + rewrite filesMatchingQuery_nil. apply list_filter_iff. intros fn.
      rewrite Forall_singleton, Exists_exists, elem_of_candidates. simpl.
      naive_solver.
    + rewrite (filesMatchingQuery_filter _ (q :: order')) by done.
      rewrite list_filter_filter. apply list_filter_iff. intros fn.
      rewrite (Forall_cons _ (k, V)), Exists_exists, elem_of_candidates. simpl.
      naive_solver.
  - intros hist st baseName values k1 vs1 k2 vs2 v order
      Hb Hin Hk1 Hne1 Hk2 Hne2 Hv Hnev ->%ranges_singleton.
    apply elem_of_filesMatchingQuery; [done|]. split.
    + rewrite (built_storedFiles _ _ Hb).
      by apply (list_elem_of_fmap_2' fst _ (baseName, values)).
    + apply Forall_singleton, elem_of_candidates. simpl. split.
      * by apply (built_indexed _ _ _ _ _ _ Hb Hin Hk1).
      * right. exists (TrimSpace v). split; [apply list_elem_of_here|].
        by apply (built_indexed _ _ _ _ _ _ Hb Hin Hk2).
Qed.

Lemma value_match_is_global_witness :
  filesMatchingQuery scenario [("color", ["M"])] =
    filter (λ fn, fn ∈ index (keyToFiles scenario) "color" ∧
                  Exists (λ v, fn ∈ index (valueToFiles scenario) v) ["M"])
           (filesMatchingQuery scenario []) ∧
  "A" ∈ filesMatchingQuery scenario [("color", ["M"])].
Proof.
  split.
  - apply (proj1 value_match_is_global scenario {[ "color" := ["M"] ]}).
    + apply lookup_singleton_eq.
    + discriminate.
    + unfold ranges. by rewrite map_to_list_singleton.
    + unfold ranges. by rewrite delete_singleton_eq, map_to_list_empty.
  - apply (proj2 value_match_is_global [("A", formA); ("B", formB)] scenario
             "A" formA "color" ["red"] "size" ["M"] "M").
    + apply scenario_built.
    + apply list_elem_of_here.
    + vm_compute. reflexivity.
    + vm_compute. discriminate.
    + vm_compute. reflexivity.
    + vm_compute. discriminate.
    + apply list_elem_of_here.
    + vm_compute. discriminate.
    + unfold ranges. by rewrite map_to_list_singleton.
Defined.

(** A name just indexed is found under each of its fields and values. *)
Lemma indexFile_round_trip baseName order st k vs v :
  (k, vs) ∈ order → v ∈ vs → TrimSpace k ≠ "" → TrimSpace v ≠ "" →
  baseName ∈ filesMatchingQuery (indexFile baseName order st)
               [(TrimSpace k, [TrimSpace v])].
Proof.
  intros Hk Hv Hnek Hnev.
  apply elem_of_filesMatchingQuery; [done|]. split.
  - rewrite indexFile_storedFiles, elem_of_app, list_elem_of_singleton. by right.
  - apply Forall_singleton, elem_of_candidates. simpl. split.
    + apply elem_of_indexFile_key. right. split; [done|]. by exists (k, vs).
    + right. exists (TrimSpace v). split; [apply list_elem_of_here|].
      apply elem_of_indexFile_value. right. split; [done|].
      by exists (k, vs), v.
Qed.

Lemma handlerPost_ok ts values order st :
  values ≠ ∅ →
  handlerPost ts true values order st =
  (indexFile (baseNameAt ts) order st, Saved (baseNameAt ts)).
Proof.
  intros Hne. unfold handlerPost, writeFormFile.
  case_decide as Hsize; [|done]. by apply map_size_empty_inv in Hsize.
Qed.

(** The state and the answer of an accepted POST request. *)
Lemma handlerPost_Saved ts fsOK values order st st' id :
  handlerPost ts fsOK values order st = (st', Saved id) →
  values ≠ ∅ ∧ fsOK = true ∧ id = baseNameAt ts ∧ st' = indexFile id order st.
Proof.
  unfold handlerPost, writeFormFile. case_decide as Hsize; [discriminate|].
  destruct fsOK; [|discriminate]. intros [= <- <-].
  split; [|done]. intros ->. by rewrite map_size_empty in Hsize.
Qed.

(** Claim C3, as stated, fails on a field whose name carries surrounding
    blanks: the name is indexed trimmed, and the query is looked up as it
    is. *)
Lemma round_trip_padded_name_counterexample :
  paddedName !! " k " = Some ["v"] ∧
  paddedPost.2 = Saved "form_1" ∧
  "form_1" ∉ filesMatchingQuery paddedPost.1 [(" k ", ["v"])].
Proof.
  split; [vm_compute; reflexivity|]. split; [vm_compute; reflexivity|].
  assert (filesMatchingQuery paddedPost.1 [(" k ", ["v"])] = []) as ->
    by (vm_compute; reflexivity).
  apply not_elem_of_nil.
Qed.

(** Claim C3, amended.  After an accepted POST request with field map
    [values], for every pair of a field name [k] and one of its values [v]
    that are both not blank, the query for the trimmed value under the
    trimmed name returns the name the request was saved under.  When [k] and
    [v] carry no surrounding white space this is the query for [v] under
    [k]. *)
Theorem round_trip ts fsOK values order st st' id k vs v qorder :
  ranges values order →
  handlerPost ts fsOK values order st = (st', Saved id) →
  values !! k = Some vs → v ∈ vs →
  TrimSpace k ≠ "" → TrimSpace v ≠ "" →
  ranges {[ TrimSpace k := [TrimSpace v] ]} qorder →
  id ∈ filesMatchingQuery st' qorder.
Proof.
  intros Hr (_ & _ & _ & ->)%handlerPost_Saved Hk Hv Hnek Hnev
    ->%ranges_singleton.
  apply (elem_of_ranges _ _ _ _ Hr) in Hk.
  by apply (indexFile_round_trip _ _ _ k vs v).
Qed.

Lemma round_trip_witness :
  "form_1" ∈ filesMatchingQuery paddedPost.1 [("k", ["v"])].
Proof.
  apply (round_trip 1 true paddedName (map_to_list paddedName) initial
           paddedPost.1 "form_1" " k " ["v"] "v" [("k", ["v"])]).
  - apply ranges_map_to_list.
  - vm_compute. reflexivity.
  - vm_compute. reflexivity.
  - apply list_elem_of_here.
  - vm_compute. discriminate.
  - vm_compute. discriminate.
  - unfold ranges. by rewrite map_to_list_singleton.
Defined.

(** Claim C9, as stated, fails on a field whose name carries surrounding
    blanks: the saved name is listed under the trimmed field name only. *)
Lemma index_invariant_padded_name_counterexample :
  built [("form_1", paddedName)] paddedPost.1 ∧
  paddedName !! " k " = Some ["v"] ∧
  "form_1" ∉ keyIndex paddedPost.1 " k ".
Proof.
  split; [|split].
  - apply (built_snoc [] _ "form_1" paddedName); [|apply ranges_map_to_list].
    apply built_nil.
  - vm_compute. reflexivity.
  - assert (keyIndex paddedPost.1 " k " = ∅) as -> by (vm_compute; reflexivity).
    apply not_elem_of_empty.
Qed.

(** Claim C9, amended.  After any sequence of calls of [indexFile], for
    every recorded call and every field of its map whose name is not blank,
    the saved name is listed under the trimmed field name in the key index
    and, for every value of that field that is not blank, under the trimmed
    value in the value index. *)
Theorem index_invariant hist st baseName values k vs :
  built hist st → (baseName, values) ∈ hist → values !! k = Some vs →
  TrimSpace k ≠ "" →
  baseName ∈ keyIndex st (TrimSpace k) ∧
  ∀ v, v ∈ vs → TrimSpace v ≠ "" → baseName ∈ valueIndex st (TrimSpace v).
Proof.
  intros Hb Hin Hk Hne. unfold keyIndex, valueIndex.
  destruct (built_indexed _ _ _ _ _ _ Hb Hin Hk Hne) as [Hkey Hval]. split.
  - by apply elem_of_list_to_set.
  - intros v Hv Hnev. by apply elem_of_list_to_set, Hval.
Qed.

Lemma index_invariant_witness :
  "B" ∈ keyIndex scenario "color" ∧
  ∀ v, v ∈ ["blue"] → TrimSpace v ≠ "" → "B" ∈ valueIndex scenario (TrimSpace v).
Proof.
  apply (index_invariant [("A", formA); ("B", formB)] scenario "B" formB
           "color" ["blue"]).
  - apply scenario_built.
  - apply list_elem_of_further, list_elem_of_here.
  - vm_compute. reflexivity.
  - vm_compute. discriminate.
Defined.

(** Names and values enter the maps only through [TrimSpace]. *)
Lemma indexValue_trim baseName m v v' :
  TrimSpace v = TrimSpace v' → indexValue baseName m v = indexValue baseName m v'.
Proof. unfold indexValue. by intros ->. Qed.

Lemma indexValues_trim baseName vs vs' (m : gmap string (list string)) :
  Forall2 (λ v v', TrimSpace v = TrimSpace v') vs vs' →
  foldl (indexValue baseName) m vs = foldl (indexValue baseName) m vs'.
Proof.
  intros H. revert m. induction H as [|v v' vs vs' Hv _ IH]; intros m; simpl.
  - done.
  - by rewrite (indexValue_trim _ _ _ _ Hv), IH.
Qed.

Lemma indexEntry_trim baseName st kv kv' :
  TrimSpace kv.1 = TrimSpace kv'.1 →
  Forall2 (λ v v', TrimSpace v = TrimSpace v') kv.2 kv'.2 →
  indexEntry baseName st kv = indexEntry baseName st kv'.
Proof.
  intros Hk Hvs. unfold indexEntry.
  by rewrite Hk, (indexValues_trim _ _ _ _ Hvs).
Qed.

Lemma indexEntry_blank_name baseName st k vs :
  whitespace k → indexEntry baseName st (k, vs) = st.
Proof.
  intros Hk. unfold indexEntry. simpl. by rewrite (TrimSpace_whitespace k Hk).
Qed.

Lemma indexValue_blank baseName m v :
  whitespace v → indexValue baseName m v = m.
Proof. intros Hv. unfold indexValue. by rewrite (TrimSpace_whitespace v Hv). Qed.

Lemma indexEntry_blank_value baseName st k vs1 v vs2 :
  whitespace v →
  indexEntry baseName st (k, vs1 ++ v :: vs2) =
  indexEntry baseName st (k, vs1 ++ vs2).
Proof.
  intros Hv. unfold indexEntry. simpl. case_decide; [done|].
  f_equal. rewrite !foldl_app. simpl. by rewrite indexValue_blank.
Qed.

(** Claim C7.  [indexFile] sees field names and values only through
    [TrimSpace]: two visiting orders whose names and values agree after
    trimming give the same state.  A field whose name consists of white space
    only changes neither map, and a value that consists of white space only
    changes neither map.  The field with name k and value v, with and without
    surrounding blanks, gives the same state, so every query has the same
    answer on both, and the query for v under k returns the saved name. *)
Theorem trimmed_on_update :
  (∀ baseName st order order',
     Forall2 (λ kv kv', TrimSpace kv.1 = TrimSpace kv'.1 ∧
                Forall2 (λ v v', TrimSpace v = TrimSpace v') kv.2 kv'.2)
             order order' →
     indexFile baseName order st = indexFile baseName order' st) ∧
  (∀ baseName st order1 k vs order2,
     whitespace k →
     indexFile baseName (order1 ++ (k, vs) :: order2) st =
     indexFile baseName (order1 ++ order2) st) ∧
  (∀ baseName st order1 k vs1 v vs2 order2,
     whitespace v →
     indexFile baseName (order1 ++ (k, vs1 ++ v :: vs2) :: order2) st =
     indexFile baseName (order1 ++ (k, vs1 ++ vs2) :: order2) st) ∧
  (∀ ts fsOK st order1 order2 qorder,
     ranges paddedKV order1 → ranges plainKV order2 → ranges plainKV qorder →
     handlerPost ts fsOK paddedKV order1 st =
       handlerPost ts fsOK plainKV order2 st ∧
     filesMatchingQuery (handlerPost ts fsOK paddedKV order1 st).1 qorder =
       filesMatchingQuery (handlerPost ts fsOK plainKV order2 st).1 qorder ∧
     (fsOK = true →
      baseNameAt ts ∈
        filesMatchingQuery (handlerPost ts fsOK paddedKV order1 st).1 qorder)).
Proof.
  split; [|split; [|split]].
  - intros baseName st order order' H. unfold indexFile.
    generalize {| keyToFiles := keyToFiles st;
                  valueToFiles := valueToFiles st;
                  storedFiles := storedFiles st ++ [baseName] |}.
    induction H as [|kv kv' order order' [Hk Hvs] _ IH]; intros st0; simpl.
    + done.
    + by rewrite (indexEntry_trim _ _ _ _ Hk Hvs), IH.
  - intros baseName st order1 k vs order2 Hk. unfold indexFile.
    rewrite !foldl_app. simpl. by rewrite indexEntry_blank_name.
  - intros baseName st order1 k vs1 v vs2 order2 Hv. unfold indexFile.
    rewrite !foldl_app. simpl. by rewrite indexEntry_blank_value.
  - intros ts fsOK st order1 order2 qorder
      ->%ranges_singleton ->%ranges_singleton ->%ranges_singleton.
    assert (handlerPost ts fsOK paddedKV [(" k ", [" v "])] st =
            handlerPost ts fsOK plainKV [("k", ["v"])] st) as Heq.
    { unfold handlerPost. unfold paddedKV, plainKV.
      rewrite !map_size_singleton. simpl. by destruct (writeFormFile ts fsOK). }
    split; [exact Heq|]. split; [by rewrite Heq|].
    intros ->. rewrite handlerPost_ok by apply map_non_empty_singleton.
    apply (indexFile_round_trip _ _ _ " k " [" v "] " v ").
    + apply list_elem_of_here.
    + apply list_elem_of_here.
    + vm_compute. discriminate.
    + vm_compute. discriminate.
Qed.

Lemma whitespace_nbsp : whitespace nbsp.
Proof. apply ws_two; [reflexivity|apply ws_nil]. Qed.

Lemma whitespace_blank : whitespace " ".
Proof. apply ws_ascii; [reflexivity|apply ws_nil]. Qed.

Lemma trimmed_on_update_witness :
  indexFile "form_1" [(" k ", [" v "])] initial =
    indexFile "form_1" [("k", ["v"])] initial ∧
  indexFile "form_1" ([("k", ["v"])] ++ (nbsp, ["w"]) :: []) initial =
    indexFile "form_1" ([("k", ["v"])] ++ []) initial ∧
  indexFile "form_1" ([] ++ ("k", ["v"] ++ " " :: []) :: []) initial =
    indexFile "form_1" ([] ++ ("k", ["v"] ++ []) :: []) initial ∧
  (handlerPost 1 true paddedKV [(" k ", [" v "])] initial =
     handlerPost 1 true plainKV [("k", ["v"])] initial ∧
   filesMatchingQuery
     (handlerPost 1 true paddedKV [(" k ", [" v "])] initial).1 [("k", ["v"])] =
   filesMatchingQuery
     (handlerPost 1 true plainKV [("k", ["v"])] initial).1 [("k", ["v"])] ∧
   (true = true →
    baseNameAt 1 ∈
      filesMatchingQuery
        (handlerPost 1 true paddedKV [(" k ", [" v "])] initial).1
        [("k", ["v"])])).
Proof.
  destruct trimmed_on_update as (Htrim & Hname & Hvalue & Hsame).
  split; [|split; [|split]].
  - apply Htrim. repeat constructor.
  - apply Hname, whitespace_nbsp.
  - apply Hvalue, whitespace_blank.
  - apply Hsame; unfold ranges, paddedKV, plainKV;
      by rewrite map_to_list_singleton.
Defined.

(** Distinct clock readings give distinct names. *)
Lemma baseNameAt_inj ts1 ts2 : baseNameAt ts1 = baseNameAt ts2 → ts1 = ts2.
Proof.
  unfold baseNameAt. intros H%(inj (String.app "form_")).
  by apply (inj pretty) in H.
Qed.

(** Two accepted POST requests that read the same clock value are saved
    under the same name. *)
Lemma handlerPost_same_instant ts values1 order1 values2 order2 st :
  values1 ≠ ∅ → values2 ≠ ∅ →
  (handlerPost ts true values2 order2
     (handlerPost ts true values1 order1 st).1).2 =
  (handlerPost ts true values1 order1 st).2.
Proof. intros H1 H2. by rewrite !handlerPost_ok. Qed.

(** The session identifiers of two calls of [newSession] at the same clock
    reading differ: the counter breaks the tie. *)
Lemma wrap64_succ_ne n :
  (- 2 ^ 63 ≤ n < 2 ^ 63)%Z → wrap64 (n + 1) ≠ n.
Proof.
  intros Hn. unfold wrap64. destruct (decide (n = 2 ^ 63 - 1)%Z) as [->|Hmax].
  - done.
  - rewrite Z.mod_small by lia. lia.
Qed.

Lemma newSession_same_instant ts user1 user2 ss :
  (- 2 ^ 63 ≤ nextSessNum ss < 2 ^ 63)%Z →
  (newSession ts user2 (newSession ts user1 ss).2).1 ≠
  (newSession ts user1 ss).1.
Proof.
  intros Hn. simpl. intros H%(inj (String.app (pretty ts))).
  apply (inj (String.app "-")), (inj pretty) in H.
  by apply wrap64_succ_ne in H.
Qed.

(** Claim C1.  Two POST requests handled at the clock reading [sameInstant]
    are both saved as [form_1700000000000000000]: [writeFormFile] derives the
    name from the clock reading alone, without a tie-breaking counter, and
    [storedFiles] then lists that name twice. *)
Theorem same_instant_same_name :
  firstPost.2 = Saved "form_1700000000000000000" ∧
  secondPost.2 = Saved "form_1700000000000000000" ∧
  storedFiles secondPost.1 =
    ["form_1700000000000000000"; "form_1700000000000000000"] ∧
  ¬ NoDup (storedFiles secondPost.1).
Proof.
  assert (storedFiles secondPost.1 =
            ["form_1700000000000000000"; "form_1700000000000000000"]) as Hfiles
    by (vm_compute; reflexivity).
  split; [vm_compute; reflexivity|]. split; [vm_compute; reflexivity|].
  split; [exact Hfiles|]. rewrite Hfiles.
  intros [Hnotin _]%NoDup_cons. apply Hnotin, list_elem_of_here.
Qed.

(** The scenario of the design document. *)
Example scenario_color_red :
  filesMatchingQuery scenario [("color", ["red"])] = ["A"].
Proof. vm_compute. reflexivity. Qed.

Example scenario_size_any :
  filesMatchingQuery scenario [("size", [])] = ["A"; "B"].
Proof. vm_compute. reflexivity. Qed.

Example scenario_red_L :
  filesMatchingQuery scenario (map_to_list queryRedL) = [].
Proof. vm_compute. reflexivity. Qed.

Example scenario_unknown_field :
  filesMatchingQuery scenario [("nonexistent", ["x"])] = [].
Proof. vm_compute. reflexivity. Qed.

Example scenario_value_under_other_field :
  filesMatchingQuery scenario [("color", ["M"])] = ["A"; "B"].
Proof. vm_compute. reflexivity. Qed.

End claims.

(** * Further properties of the index *)
Section index_growth.
Implicit Types (m : gmap string (list string)) (st : store).
Implicit Types (k v fn baseName : string) (vs : list string).
Implicit Types (values : gmap string (list string)).
Implicit Types (order : list (string * list string)).

(** A fold with a function whose steps commute does not depend on the order
    of the list. *)
Lemma foldl_commute_perm {A B} (f : A → B → A) (l l' : list B) :
  (∀ a x y, f (f a x) y = f (f a y) x) →
  l ≡ₚ l' → ∀ a, foldl f a l = foldl f a l'.
Proof.
  intros Hf Hperm.
  induction Hperm as [|x l l' _ IH|x y l|l1 l2 l3 _ IH1 _ IH2]; intros a; simpl.
  - done.
  - apply IH.
  - by rewrite Hf.
  - by rewrite IH1, IH2.
Qed.

Lemma filter_one {A} (P : A → Prop) `{!∀ x, Decision (P x)} (x : A) :
  filter P [x] = if decide (P x) then [x] else [].
Proof. rewrite filter_cons, filter_nil. by case_decide. Qed.

Lemma append_commute baseName m k1 k2 :
  <[k2 := index (<[k1 := index m k1 ++ [baseName]]> m) k2 ++ [baseName]]>
    (<[k1 := index m k1 ++ [baseName]]> m) =
  <[k1 := index (<[k2 := index m k2 ++ [baseName]]> m) k1 ++ [baseName]]>
    (<[k2 := index m k2 ++ [baseName]]> m).
Proof.
  destruct (decide (k1 = k2)) as [->|Hne]; [done|].
  rewrite !index_insert.
  rewrite (decide_False (P := k1 = k2)), (decide_False (P := k2 = k1)) by done.
  by apply insert_insert_ne.
Qed.

Lemma indexValue_commute baseName m v1 v2 :
  indexValue baseName (indexValue baseName m v1) v2 =
  indexValue baseName (indexValue baseName m v2) v1.
Proof.
  unfold indexValue. repeat case_decide; try done. apply append_commute.
Qed.

Lemma indexEntry_commute baseName st kv1 kv2 :
  indexEntry baseName (indexEntry baseName st kv1) kv2 =
  indexEntry baseName (indexEntry baseName st kv2) kv1.
Proof.
  unfold indexEntry. repeat case_decide; try done. simpl. f_equal.
  - apply append_commute.
  - rewrite <- !foldl_app.
    apply foldl_commute_perm; [|apply Permutation_app_comm].
    intros. apply indexValue_commute.
Qed.

Lemma indexFile_perm baseName order order' st :
  order ≡ₚ order' → indexFile baseName order st = indexFile baseName order' st.
Proof.
  intros Hperm. unfold indexFile.
  apply foldl_commute_perm; [|done]. intros. apply indexEntry_commute.
Qed.

(** Property X1.  The state after [indexFile] does not depend on the order
    in which Go happens to range over the field map: every entry appended is
    the same file name, so any two visiting orders of one map give the same
    maps and the same list. *)
Theorem indexFile_order_independent baseName values order order' st :
  ranges values order → ranges values order' →
  indexFile baseName order st = indexFile baseName order' st.
Proof.
  intros Hr Hr'. apply indexFile_perm. by apply (ranges_fun values).
Qed.

Lemma indexFile_order_independent_witness :
  indexFile "A" (map_to_list formA) initial =
  indexFile "A" (reverse (map_to_list formA)) initial.
Proof.
  apply (indexFile_order_independent "A" formA).
  - apply ranges_map_to_list.
  - unfold ranges. apply reverse_Permutation.
Defined.

Lemma index_indexValue baseName m v k :
  index (indexValue baseName m v) k =
  index m k ++ replicate (valueHitsOf [v] k) baseName.
Proof.
  unfold indexValue, valueHitsOf. rewrite filter_one.
  case_decide as Hv.
  - rewrite decide_False by (intros [? ?]; congruence). simpl.
    by rewrite app_nil_r.
  - rewrite index_insert. case_decide as Hk.
    + subst k. by rewrite decide_True.
    + rewrite decide_False by (by intros [? _]). simpl. by rewrite app_nil_r.
Qed.

Lemma index_indexValues baseName vs m k :
  index (foldl (indexValue baseName) m vs) k =
  index m k ++ replicate (valueHitsOf vs k) baseName.
Proof.
  revert m. induction vs as [|v vs IH]; intros m; simpl.
  - by rewrite app_nil_r.
  - rewrite IH, index_indexValue, <- app_assoc, <- replicate_add.
    do 2 f_equal. unfold valueHitsOf. rewrite (filter_cons _ v vs), filter_one.
    by case_decide.
Qed.

Lemma index_indexEntry_key baseName st kv k :
  index (keyToFiles (indexEntry baseName st kv)) k =
  index (keyToFiles st) k ++ replicate (keyHits [kv] k) baseName.
Proof.
  unfold indexEntry, keyHits. rewrite filter_one.
  case_decide as Hkv; simpl.
  - rewrite decide_False by (intros [? ?]; congruence). simpl.
    by rewrite app_nil_r.
  - rewrite index_insert. case_decide as Hk.
    + subst k. by rewrite decide_True.
    + rewrite decide_False by (by intros [? _]). simpl. by rewrite app_nil_r.
Qed.

Lemma index_indexEntry_value baseName st kv v :
  index (valueToFiles (indexEntry baseName st kv)) v =
  index (valueToFiles st) v ++ replicate (valueHits [kv] v) baseName.
Proof.
  unfold indexEntry, valueHits. simpl. case_decide as Hkv; simpl.
  - by rewrite app_nil_r.
  - rewrite index_indexValues. do 2 f_equal. lia.
Qed.

Lemma keyHits_cons kv order k :
  keyHits (kv :: order) k = keyHits [kv] k + keyHits order k.
Proof.
  unfold keyHits. rewrite (filter_cons _ kv order), filter_one.
  by case_decide.
Qed.

Lemma valueHits_cons kv order v :
  valueHits (kv :: order) v = valueHits [kv] v + valueHits order v.
Proof. unfold valueHits. simpl. by rewrite Nat.add_0_r. Qed.

Lemma index_foldl_indexEntry baseName order st :
  (∀ k, index (keyToFiles (foldl (indexEntry baseName) st order)) k =
        index (keyToFiles st) k ++ replicate (keyHits order k) baseName) ∧
  (∀ v, index (valueToFiles (foldl (indexEntry baseName) st order)) v =
        index (valueToFiles st) v ++ replicate (valueHits order v) baseName).
Proof.
  revert st. induction order as [|kv order IH]; intros st; simpl.
  - split; intros; by rewrite app_nil_r.
  - destruct (IH (indexEntry baseName st kv)) as [IHk IHv]. split.
    + intros k. by rewrite IHk, index_indexEntry_key, <- app_assoc,
        <- replicate_add, <- keyHits_cons.
    + intros v. by rewrite IHv, index_indexEntry_value, <- app_assoc,
        <- replicate_add, <- valueHits_cons.
Qed.

(** Property X2.  [indexFile] only appends.  The list of stored files gains
    the new name at its end; the list under each key gains, at its end, one
    copy of the name for every visited field whose trimmed name is that key;
    the list under each value gains one copy for every value occurrence,
    under a field with a non-blank name, whose trimmed form is that value.
    Nothing that was listed before is removed or moved. *)
Theorem indexFile_appends baseName order st :
  storedFiles (indexFile baseName order st) = storedFiles st ++ [baseName] ∧
  (∀ k, index (keyToFiles (indexFile baseName order st)) k =
        index (keyToFiles st) k ++ replicate (keyHits order k) baseName) ∧
  (∀ v, index (valueToFiles (indexFile baseName order st)) v =
        index (valueToFiles st) v ++ replicate (valueHits order v) baseName).
Proof.
  split; [apply indexFile_storedFiles|]. unfold indexFile.
  apply (index_foldl_indexEntry baseName order
           {| keyToFiles := keyToFiles st;
              valueToFiles := valueToFiles st;
              storedFiles := storedFiles st ++ [baseName] |}).
Qed.

End index_growth.

(** * The index against the submissions *)
Section index_meaning.
Implicit Types (st : store) (k v fn baseName : string) (vs V : list string).
Implicit Types (values query : gmap string (list string)).
Implicit Types (order : list (string * list string)).
Implicit Types (hist : list (string * gmap string (list string))).

Lemma elem_of_fieldKeys values k :
  k ∈ fieldKeys values ↔
  ∃ k' vs, values !! k' = Some vs ∧ TrimSpace k' = k ∧ k ≠ "".
Proof.
  unfold fieldKeys.
  rewrite elem_of_list_to_set, list_elem_of_filter, list_elem_of_fmap. split.
  - intros (Hne & k' & -> & ([k'' vs] & -> & Hin)%list_elem_of_fmap).
    apply elem_of_map_to_list in Hin. by exists k'', vs.
  - intros (k' & vs & Hk & <- & Hne). split; [done|].
    exists k'. split; [done|].
    apply list_elem_of_fmap. exists (k', vs). split; [done|].
    by apply elem_of_map_to_list.
Qed.

Lemma elem_of_fieldValues values v :
  v ∈ fieldValues values ↔
  ∃ k' vs v', values !! k' = Some vs ∧ TrimSpace k' ≠ "" ∧
              v' ∈ vs ∧ TrimSpace v' = v ∧ v ≠ "".
Proof.
  unfold fieldValues.
  rewrite elem_of_list_to_set, list_elem_of_filter, list_elem_of_fmap. split.
  - intros (Hne & v' & -> & (vs & Hv' & Hvs)%list_elem_of_join).
    apply list_elem_of_fmap in Hvs as ([k' vs'] & -> & Hin).
    apply list_elem_of_filter in Hin as [Hk' Hin].
    apply elem_of_map_to_list in Hin. by exists k', vs', v'.
  - intros (k' & vs & v' & Hk & Hnek & Hv' & <- & Hne). split; [done|].
    exists v'. split; [done|].
    apply list_elem_of_join. exists vs. split; [done|].
    apply list_elem_of_fmap. exists (k', vs). split; [done|].
    apply list_elem_of_filter. split; [done|]. by apply elem_of_map_to_list.
Qed.

Lemma indexFile_key_iff baseName values order st fn k :
  ranges values order →
  fn ∈ index (keyToFiles (indexFile baseName order st)) k ↔
  fn ∈ index (keyToFiles st) k ∨ (fn = baseName ∧ k ∈ fieldKeys values).
Proof.
  intros Hr. rewrite elem_of_indexFile_key, elem_of_fieldKeys. split.
  - intros [?|(-> & [k' vs] & Hin & -> & Hne)]; [by left|right].
    split; [done|]. exists k', vs.
    by apply (elem_of_ranges _ _ _ _ Hr) in Hin.
  - intros [?|(-> & k' & vs & Hin & <- & Hne)]; [by left|right].
    split; [done|]. exists (k', vs).
    by apply (elem_of_ranges _ _ _ _ Hr) in Hin.
Qed.

Lemma indexFile_value_iff baseName values order st fn v :
  ranges values order →
  fn ∈ index (valueToFiles (indexFile baseName order st)) v ↔
  fn ∈ index (valueToFiles st) v ∨ (fn = baseName ∧ v ∈ fieldValues values).
Proof.
  intros Hr. rewrite elem_of_indexFile_value, elem_of_fieldValues. split.
  - intros [?|(-> & [k' vs] & v' & Hin & Hnek & Hv' & -> & Hne)]; [by left|right].
    split; [done|]. exists k', vs, v'.
    by apply (elem_of_ranges _ _ _ _ Hr) in Hin.
  - intros [?|(-> & k' & vs & v' & Hin & Hnek & Hv' & <- & Hne)]; [by left|right].
    split; [done|]. exists (k', vs), v'.
    by apply (elem_of_ranges _ _ _ _ Hr) in Hin.
Qed.

Lemma built_key_iff hist st fn k :
  built hist st →
  fn ∈ index (keyToFiles st) k ↔
  ∃ values, (fn, values) ∈ hist ∧ k ∈ fieldKeys values.
Proof.
  induction 1 as [|hist st baseName values order _ IH Hr].
  - simpl. rewrite index_empty. split; [by intros ?%elem_of_nil|].
    by intros (? & ?%elem_of_nil & _).
  - rewrite (indexFile_key_iff _ _ _ _ _ _ Hr), IH. split.
    + intros [(values' & ? & ?)|[-> ?]].
      * exists values'. split; [|done]. apply elem_of_app. by left.
      * exists values. split; [|done]. apply elem_of_app. right.
        apply list_elem_of_here.
    + intros (values' & [?|[= -> ->]%list_elem_of_singleton]%elem_of_app & ?).
      * left. by exists values'.
      * by right.
Qed.

Lemma built_value_iff hist st fn v :
  built hist st →
  fn ∈ index (valueToFiles st) v ↔
  ∃ values, (fn, values) ∈ hist ∧ v ∈ fieldValues values.
Proof.
  induction 1 as [|hist st baseName values order _ IH Hr].
  - simpl. rewrite index_empty. split; [by intros ?%elem_of_nil|].
    by intros (? & ?%elem_of_nil & _).
  - rewrite (indexFile_value_iff _ _ _ _ _ _ Hr), IH. split.
    + intros [(values' & ? & ?)|[-> ?]].
      * exists values'. split; [|done]. apply elem_of_app. by left.
      * exists values. split; [|done]. apply elem_of_app. right.
        apply list_elem_of_here.
    + intros (values' & [?|[= -> ->]%list_elem_of_singleton]%elem_of_app & ?).
      * left. by exists values'.
      * by right.
Qed.

(** Property X3.  The two maps list nothing that was not submitted: on a
    state built by [indexFile], a file name is listed under a key exactly
    when a recorded call saved under that name has a field whose trimmed,
    non-empty name is the key, and under a value exactly when such a call
    has, under a non-blank field name, a value whose trimmed, non-empty form
    is the value. *)
Theorem index_lists_exactly_the_submissions hist st fn :
  built hist st →
  (∀ k, fn ∈ keyIndex st k ↔
        ∃ values, (fn, values) ∈ hist ∧ k ∈ fieldKeys values) ∧
  (∀ v, fn ∈ valueIndex st v ↔
        ∃ values, (fn, values) ∈ hist ∧ v ∈ fieldValues values).
Proof.
  intros Hb. unfold keyIndex, valueIndex. split.
  - intros k. rewrite elem_of_list_to_set. by apply built_key_iff.
  - intros v. rewrite elem_of_list_to_set. by apply built_value_iff.
Qed.

Lemma index_lists_exactly_the_submissions_witness :
  (∀ k, "A" ∈ keyIndex scenario k ↔
        ∃ values, ("A", values) ∈ [("A", formA); ("B", formB)] ∧
                  k ∈ fieldKeys values) ∧
  (∀ v, "A" ∈ valueIndex scenario v ↔
        ∃ values, ("A", values) ∈ [("A", formA); ("B", formB)] ∧
                  v ∈ fieldValues values).
Proof.
  apply (index_lists_exactly_the_submissions [("A", formA); ("B", formB)]).
  apply scenario_built.
Defined.

End index_meaning.

(** * Further properties of the matcher *)
Section matcher_meaning.
Implicit Types (st : store) (k v fn baseName : string) (vs V : list string).
Implicit Types (values query : gmap string (list string)).
Implicit Types (order qorder : list (string * list string)).
Implicit Types (hist : list (string * gmap string (list string))).

Lemma filter_fmap_list {A B} (f : A → B) (P : B → Prop)
    `{!∀ y, Decision (P y)} (l : list A) :
  filter P (f <$> l) = f <$> filter (λ x, P (f x)) l.
Proof.
  induction l as [|x l IH]; [done|]. csimpl.
  rewrite (filter_cons P (f x)), (filter_cons (λ x, P (f x)) x).
  case_decide; csimpl; by rewrite IH.
Qed.

Lemma filter_ext_elem {A} (P Q : A → Prop)
    `{!∀ x, Decision (P x), !∀ x, Decision (Q x)} (l : list A) :
  (∀ x, x ∈ l → P x ↔ Q x) → filter P l = filter Q l.
Proof.
  induction l as [|x l IH]; intros Hext; [done|].
  rewrite (filter_cons P), (filter_cons Q).
  pose proof (Hext x (list_elem_of_here _ _)) as Hx.
  rewrite IH by (intros y Hy; apply Hext; by apply list_elem_of_further).
  repeat case_decide; tauto.
Qed.

Lemma filter_all {A} (P : A → Prop) `{!∀ x, Decision (P x)} (l : list A) :
  (∀ x, P x) → filter P l = l.
Proof.
  intros HP. induction l as [|x l IH]; [done|].
  by rewrite filter_cons_True, IH.
Qed.

Lemma hist_unique hist fn values values' :
  NoDup hist.*1 → (fn, values) ∈ hist → (fn, values') ∈ hist →
  values = values'.
Proof.
  induction hist as [|[a b] hist IH]; csimpl; [by intros _ ?%elem_of_nil|].
  intros [Hnotin Hnd]%NoDup_cons
    [[= -> ->]|Hin1]%elem_of_cons [[= ?]|Hin2]%elem_of_cons.
  - done.
  - destruct Hnotin. by apply (list_elem_of_fmap_2' fst _ (a, values')).
  - subst. destruct Hnotin. by apply (list_elem_of_fmap_2' fst _ (a, values)).
  - by apply IH.
Qed.

Lemma candidates_satisfies hist st fn values q :
  built hist st → NoDup hist.*1 → (fn, values) ∈ hist →
  fn ∈ candidates st q.1 q.2 ↔ satisfies values q.
Proof.
  intros Hb Hnd Hin. unfold satisfies.
  rewrite elem_of_candidates, (built_key_iff _ _ _ _ Hb), Exists_exists. split.
  - intros [(values' & Hin' & Hk) Hv].
    rewrite (hist_unique _ _ _ _ Hnd Hin Hin'). split; [done|].
    destruct Hv as [?|(v & Hv & Hfn)]; [by left|right].
    exists v. split; [done|].
    apply (built_value_iff _ _ _ _ Hb) in Hfn as (values'' & Hin'' & Hfn).
    by rewrite (hist_unique _ _ _ _ Hnd Hin' Hin'').
  - intros [Hk Hv]. split; [by exists values|].
    destruct Hv as [?|(v & Hv & Hfn)]; [by left|right].
    exists v. split; [done|].
    apply (built_value_iff _ _ _ _ Hb). by exists values.
Qed.

(** Property X8.  With pairwise distinct file names, the index-based matcher
    returns exactly what a scan of the recorded submissions returns: the
    names, oldest first, of the submissions that for every queried field
    have the key and, when values are asked for, one of the values
    anywhere. *)
Theorem match_is_scan hist st order :
  built hist st → NoDup hist.*1 →
  filesMatchingQuery st order = scan hist order.
Proof.
  intros Hb Hnd. unfold scan. destruct order as [|q order].
  - rewrite filesMatchingQuery_nil, (built_storedFiles _ _ Hb).
    rewrite filter_all; [done|]. intros sub. constructor.
  - rewrite filesMatchingQuery_filter, (built_storedFiles _ _ Hb) by done.
    rewrite filter_fmap_list. f_equal.
    apply filter_ext_elem. intros [fn values] Hin. simpl.
    rewrite !Forall_forall. split; intros H q' Hq'.
    + by apply (candidates_satisfies _ _ _ _ _ Hb Hnd Hin), H.
    + by apply (candidates_satisfies _ _ _ _ _ Hb Hnd Hin), H.
Qed.

Lemma match_is_scan_witness :
  filesMatchingQuery scenario [("color", ["M"; "red"]); ("size", [])] =
  scan [("A", formA); ("B", formB)] [("color", ["M"; "red"]); ("size", [])].
Proof.
  apply match_is_scan.
  - apply scenario_built.
  - apply NoDup_cons. split; [|apply NoDup_singleton].
    intros [=]%list_elem_of_singleton.
Defined.

End matcher_meaning.

(** * How queries and calls compose *)
Section matcher_composition.
Implicit Types (st : store) (k v fn baseName : string) (vs V : list string).
Implicit Types (values query : gmap string (list string)).
Implicit Types (order qorder : list (string * list string)).

Lemma candidates_indexFile_other baseName order st fn qk qvs :
  fn ≠ baseName →
  fn ∈ candidates (indexFile baseName order st) qk qvs ↔
  fn ∈ candidates st qk qvs.
Proof.
  intros Hne. rewrite !elem_of_candidates, elem_of_indexFile_key.
  setoid_rewrite elem_of_indexFile_value. naive_solver.
Qed.

(** Property X4.  Indexing a file under a name that is not yet stored leaves
    the answer to every query as it was, except that the new name may be
    added at its end: which of the older files match does not change. *)
Theorem match_after_indexFile baseName order st qorder :
  baseName ∉ storedFiles st →
  filesMatchingQuery (indexFile baseName order st) qorder =
  filesMatchingQuery st qorder ++
  (if decide (baseName ∈ filesMatchingQuery (indexFile baseName order st) qorder)
   then [baseName] else []).
Proof.
  intros Hfresh. destruct qorder as [|q qorder].
  - rewrite !filesMatchingQuery_nil, indexFile_storedFiles.
    rewrite decide_True; [done|]. apply elem_of_app. right.
    apply list_elem_of_here.
  - rewrite !filesMatchingQuery_filter, indexFile_storedFiles by done.
    rewrite filter_app, filter_one. f_equal.
    + apply filter_ext_elem. intros fn Hfn.
      assert (fn ≠ baseName) as Hne by (intros ->; done).
      rewrite !Forall_forall. split; intros H q' Hq'.
      * by apply (candidates_indexFile_other baseName order), H.
      * by apply (candidates_indexFile_other baseName order), H.
    + match goal with
      | |- (if decide ?P then _ else _) = (if decide ?Q then _ else _) =>
          assert (Q ↔ P) as Hiff
      end.
      { rewrite elem_of_app, list_elem_of_filter. case_decide.
        - rewrite list_elem_of_singleton. tauto.
        - rewrite elem_of_nil. tauto. }
      case_decide.
      * by rewrite decide_True by tauto.
      * by rewrite decide_False by tauto.
Qed.

Lemma match_after_indexFile_witness :
  filesMatchingQuery scenario [("size", ["M"])] =
  filesMatchingQuery (indexFile "A" (map_to_list formA) initial)
    [("size", ["M"])] ++
  (if decide ("B" ∈ filesMatchingQuery scenario [("size", ["M"])])
   then ["B"] else []).
Proof.
  apply (match_after_indexFile "B" (map_to_list formB)
           (indexFile "A" (map_to_list formA) initial) [("size", ["M"])]).
  vm_compute. intros [=]%list_elem_of_singleton.
Defined.

Lemma filesMatchingQuery_cons st qk qvs order :
  filesMatchingQuery st ((qk, qvs) :: order) =
  filter (λ fn, fn ∈ candidates st qk qvs) (filesMatchingQuery st order).
Proof.
  rewrite filesMatchingQuery_filter by done. destruct order as [|q order].
  - rewrite filesMatchingQuery_nil. apply list_filter_iff. intros fn.
    by rewrite Forall_singleton.
  - rewrite (filesMatchingQuery_filter _ (q :: order)) by done.
    rewrite list_filter_filter. apply list_filter_iff. intros fn.
    by rewrite (Forall_cons _ (qk, qvs)).
Qed.

(** Property X5.  Asking for one more field never adds results: the answer
    to a query is the answer to the query without one of its fields, with
    some names left out. *)
Theorem more_fields_fewer_results st query order order' k V :
  query !! k = Some V →
  ranges query order → ranges (delete k query) order' →
  sublist (filesMatchingQuery st order) (filesMatchingQuery st order').
Proof.
  intros Hk Hr Hr'.
  rewrite (filesMatchingQuery_perm _ _ _ (ranges_delete _ _ _ _ _ Hk Hr Hr')).
  rewrite filesMatchingQuery_cons. apply sublist_filter.
Qed.

Lemma more_fields_fewer_results_witness :
  sublist (filesMatchingQuery scenario (map_to_list queryRedL))
          (filesMatchingQuery scenario [("color", ["red"])]).
Proof.
  apply (more_fields_fewer_results scenario queryRedL _ _ "size" ["L"]).
  - vm_compute. reflexivity.
  - apply ranges_map_to_list.
  - unfold ranges. vm_compute. reflexivity.
Defined.

Lemma candidates_value_set st k V V' :
  (∀ v, v ∈ V ↔ v ∈ V') → candidates st k V = candidates st k V'.
Proof.
  intros Hsame. apply set_eq. intros fn. rewrite !elem_of_candidates.
  assert (V = [] ↔ V' = []) as Hnil.
  { split; intros ->; apply elem_of_nil_inv; intros v Hv;
      apply Hsame in Hv; by apply elem_of_nil in Hv. }
  setoid_rewrite Hsame. tauto.
Qed.

(** Property X6.  Of the accepted values of a field only the set matters:
    repeating a value or listing the values in another order does not change
    the answer. *)
Theorem accepted_values_as_set st order order' :
  Forall2 (λ q q', q.1 = q'.1 ∧ ∀ v, v ∈ q.2 ↔ v ∈ q'.2) order order' →
  filesMatchingQuery st order = filesMatchingQuery st order'.
Proof.
  induction 1 as [|[k V] [k' V'] order order' [Hk HV] _ IH]; [done|].
  simpl in Hk, HV. subst k'.
  by rewrite !filesMatchingQuery_cons, IH, (candidates_value_set _ _ _ _ HV).
Qed.

Lemma accepted_values_as_set_witness :
  filesMatchingQuery scenario [("color", ["red"; "blue"; "red"])] =
  filesMatchingQuery scenario [("color", ["blue"; "red"])].
Proof.
  apply accepted_values_as_set. constructor; [|constructor].
  split; [done|]. intros v. simpl. rewrite !elem_of_cons. tauto.
Defined.

End matcher_composition.

(** * Trimming twice *)
Section trim_idempotent.

Lemma trimLeft_length_le n s :
  String.length s ≤ n → String.length (trimLeft s) ≤ String.length s.
Proof.
  revert s. induction n as [|n IH]; intros s Hlen.
  { destruct s; [done|simpl in Hlen; lia]. }
  destruct s as [|b0 r0]; [done|].
  simpl in Hlen. cbn [trimLeft]. destruct (asciiSpace b0).
  { specialize (IH r0). simpl. lia. }
  destruct r0 as [|b1 r1]; [done|].
  simpl in Hlen. destruct (isSpace2 b0 b1).
  { specialize (IH r1). simpl. lia. }
  destruct r1 as [|b2 r2]; [done|].
  simpl in Hlen. destruct (isSpace3 b0 b1 b2); [|done].
  specialize (IH r2). simpl. lia.
Qed.

Lemma trimLeft_length s : String.length (trimLeft s) ≤ String.length s.
Proof. by apply (trimLeft_length_le (String.length s)). Qed.

Lemma trimLeft_idem_le n s :
  String.length s ≤ n → trimLeft (trimLeft s) = trimLeft s.
Proof.
  revert s. induction n as [|n IH]; intros s Hlen.
  { destruct s; [done|simpl in Hlen; lia]. }
  destruct s as [|b0 r0]; [done|].
  simpl in Hlen. cbn [trimLeft]. destruct (asciiSpace b0) eqn:H1.
  { apply IH. lia. }
  destruct r0 as [|b1 r1]; [cbn [trimLeft]; by rewrite H1|].
  simpl in Hlen. destruct (isSpace2 b0 b1) eqn:H2.
  { apply IH. lia. }
  destruct r1 as [|b2 r2]; [cbn [trimLeft]; by rewrite H1, H2|].
  simpl in Hlen. destruct (isSpace3 b0 b1 b2) eqn:H3.
  { apply IH. lia. }
  cbn [trimLeft]. by rewrite H1, H2, H3.
Qed.

Lemma trimLeftRev_idem_le n s :
  String.length s ≤ n → trimLeftRev (trimLeftRev s) = trimLeftRev s.
Proof.
  revert s. induction n as [|n IH]; intros s Hlen.
  { destruct s; [done|simpl in Hlen; lia]. }
  destruct s as [|b0 r0]; [done|].
  simpl in Hlen. cbn [trimLeftRev]. destruct (asciiSpace b0) eqn:H1.
  { apply IH. lia. }
  destruct r0 as [|b1 r1]; [cbn [trimLeftRev]; by rewrite H1|].
  simpl in Hlen. destruct (isSpace2 b1 b0) eqn:H2.
  { apply IH. lia. }
  destruct r1 as [|b2 r2]; [cbn [trimLeftRev]; by rewrite H1, H2|].
  simpl in Hlen. destruct (isSpace3 b2 b1 b0) eqn:H3.
  { apply IH. lia. }
  cbn [trimLeftRev]. by rewrite H1, H2, H3.
Qed.

Lemma trimRight_idem s : trimRight (trimRight s) = trimRight s.
Proof.
  unfold trimRight. rewrite rev_rev.
  by rewrite (trimLeftRev_idem_le _ _ (le_n _)).
Qed.

Lemma rev_app_append s acc : String.rev_app s acc = String.rev s +:+ acc.
Proof.
  unfold String.rev. revert acc. induction s as [|c s IH]; intros acc; simpl.
  - done.
  - rewrite IH, (IH (String c "")).
    clear IH. generalize (String.rev_app s ""). intros t.
    induction t as [|d t IHt]; [done|]. by rewrite !app_String, IHt.
Qed.

(** [trimRight] removes a suffix that consists of white space. *)
Lemma trimRight_split s : ∃ w, whitespace w ∧ s = trimRight s +:+ w.
Proof.
  destruct (trimLeftRev_split_le _ (String.rev s) "" (le_n _) ws_nil)
    as (w & Hw & Heq).
  exists w. split; [done|].
  fold (String.rev (String.rev s)) in Heq. rewrite rev_rev in Heq.
  rewrite rev_app_append in Heq. exact Heq.
Qed.

(** [trimLeft] leaves a string as it is exactly when the string does not
    start with white space. *)
Lemma trimLeft_fixed_iff s : trimLeft s = s ↔ leadingSpace s = false.
Proof.
  assert (∀ r, String.length r < String.length s → trimLeft r ≠ s) as Hshort.
  { intros r Hr Heq. pose proof (trimLeft_length r) as Hle.
    rewrite Heq in Hle. lia. }
  destruct s as [|b0 r0]; [done|]. cbn [trimLeft leadingSpace].
  destruct (asciiSpace b0).
  { split; [|done]. intros H. destruct (Hshort r0); [simpl; lia|done]. }
  destruct r0 as [|b1 r1]; [done|]. destruct (isSpace2 b0 b1).
  { split; [|done]. intros H. destruct (Hshort r1); [simpl; lia|done]. }
  destruct r1 as [|b2 r2]; [done|]. destruct (isSpace3 b0 b1 b2); [|done].
  split; [|done]. intros H. destruct (Hshort r2); [simpl; lia|done].
Qed.

(** A string without leading white space keeps this when something is cut
    from its end. *)
Lemma leadingSpace_app p w :
  leadingSpace (p +:+ w) = false → leadingSpace p = false.
Proof.
  destruct p as [|b0 [|b1 [|b2 r2]]]; rewrite ?app_String; simpl; try done.
  - by intros [-> _]%orb_false_elim.
  - intros [-> [-> _]%orb_false_elim]%orb_false_elim. done.
Qed.

Lemma trimLeft_prefix p w :
  trimLeft (p +:+ w) = p +:+ w → trimLeft p = p.
Proof. rewrite !trimLeft_fixed_iff. apply leadingSpace_app. Qed.

Lemma TrimSpace_idem s : TrimSpace (TrimSpace s) = TrimSpace s.
Proof.
  unfold TrimSpace.
  assert (trimLeft (trimRight (trimLeft s)) = trimRight (trimLeft s)) as ->.
  { destruct (trimRight_split (trimLeft s)) as (w & _ & Heq).
    apply (trimLeft_prefix _ w). rewrite <- Heq.
    apply (trimLeft_idem_le _ _ (le_n _)). }
  apply trimRight_idem.
Qed.

End trim_idempotent.

(** * The keys of the two maps *)
Section index_keys.
Implicit Types (m : gmap string (list string)) (st : store).
Implicit Types (k v fn baseName : string) (vs V : list string).
Implicit Types (values query : gmap string (list string)).
Implicit Types (order : list (string * list string)).
Implicit Types (hist : list (string * gmap string (list string))).

Lemma wellKeyed_append baseName m k :
  wellKeyed m → TrimSpace k ≠ "" →
  wellKeyed (<[TrimSpace k := index m (TrimSpace k) ++ [baseName]]> m).
Proof.
  intros Hm Hk k' l. rewrite lookup_insert. case_decide as Heq.
  - intros [= <-]. subst k'. split; [apply TrimSpace_idem|]. split; [done|].
    by destruct (index m (TrimSpace k)).
  - apply Hm.
Qed.

Lemma wellKeyed_indexValue baseName m v :
  wellKeyed m → wellKeyed (indexValue baseName m v).
Proof.
  intros Hm. unfold indexValue. case_decide; [done|].
  by apply wellKeyed_append.
Qed.

Lemma wellKeyed_indexValues baseName vs m :
  wellKeyed m → wellKeyed (foldl (indexValue baseName) m vs).
Proof.
  revert m. induction vs as [|v vs IH]; intros m Hm; simpl; [done|].
  by apply IH, wellKeyed_indexValue.
Qed.

Lemma wellKeyed_indexEntry baseName st kv :
  wellKeyed (keyToFiles st) → wellKeyed (valueToFiles st) →
  wellKeyed (keyToFiles (indexEntry baseName st kv)) ∧
  wellKeyed (valueToFiles (indexEntry baseName st kv)).
Proof.
  intros Hk Hv. unfold indexEntry. case_decide; simpl; [done|]. split.
  - by apply wellKeyed_append.
  - by apply wellKeyed_indexValues.
Qed.

Lemma wellKeyed_foldl_indexEntry baseName order st :
  wellKeyed (keyToFiles st) → wellKeyed (valueToFiles st) →
  wellKeyed (keyToFiles (foldl (indexEntry baseName) st order)) ∧
  wellKeyed (valueToFiles (foldl (indexEntry baseName) st order)).
Proof.
  revert st. induction order as [|kv order IH]; intros st Hk Hv; simpl; [done|].
  destruct (wellKeyed_indexEntry baseName st kv Hk Hv). by apply IH.
Qed.

Lemma wellKeyed_indexFile baseName order st :
  wellKeyed (keyToFiles st) → wellKeyed (valueToFiles st) →
  wellKeyed (keyToFiles (indexFile baseName order st)) ∧
  wellKeyed (valueToFiles (indexFile baseName order st)).
Proof. intros Hk Hv. unfold indexFile. by apply wellKeyed_foldl_indexEntry. Qed.

Lemma built_wellKeyed hist st :
  built hist st → wellKeyed (keyToFiles st) ∧ wellKeyed (valueToFiles st).
Proof.
  induction 1 as [|hist st baseName values order _ [IHk IHv] _].
  - split; intros k l; simpl; by rewrite lookup_empty.
  - by apply wellKeyed_indexFile.
Qed.

(** Property X9.  On every state built by [indexFile], the keys of both maps
    are non-empty strings without surrounding white space, and no key is
    mapped to an empty list. *)
Theorem index_keys_are_trimmed hist st :
  built hist st → wellKeyed (keyToFiles st) ∧ wellKeyed (valueToFiles st).
Proof. apply built_wellKeyed. Qed.

Lemma index_keys_are_trimmed_witness :
  wellKeyed (keyToFiles paddedPost.1) ∧ wellKeyed (valueToFiles paddedPost.1).
Proof.
  apply (index_keys_are_trimmed [("form_1", paddedName)]).
  apply (built_snoc [] _ "form_1" paddedName); [|apply ranges_map_to_list].
  apply built_nil.
Defined.

Lemma wellKeyed_index m k fn :
  wellKeyed m → fn ∈ index m k → TrimSpace k = k ∧ k ≠ "".
Proof.
  intros Hm. unfold index. destruct (m !! k) as [l|] eqn:Hk; simpl.
  - intros _. destruct (Hm k l Hk) as (? & ? & _). done.
  - by intros ?%elem_of_nil.
Qed.

(** Property X7.  Queries are looked up as they are written.  On a state
    built by [indexFile], a query with a field name that is empty or carries
    surrounding white space returns nothing, and so does a query with a
    field all of whose accepted values are empty or carry surrounding white
    space. *)
Theorem untrimmed_query_matches_nothing hist st query order k V :
  built hist st → ranges query order → query !! k = Some V →
  TrimSpace k ≠ k ∨ k = "" ∨
    (V ≠ [] ∧ ∀ v, v ∈ V → TrimSpace v ≠ v ∨ v = "") →
  filesMatchingQuery st order = [].
Proof.
  intros Hb Hr Hk Hbad.
  destruct (built_wellKeyed _ _ Hb) as [Hkeys Hvals].
  apply (elem_of_ranges _ _ _ _ Hr) in Hk.
  assert (order ≠ []) as Hne by (intros ->; by apply elem_of_nil in Hk).
  apply elem_of_nil_inv. intros fn [_ Hall]%elem_of_filesMatchingQuery; [|done].
  rewrite Forall_forall in Hall. apply Hall in Hk. simpl in Hk.
  apply elem_of_candidates in Hk as [Hkey Hval].
  destruct (wellKeyed_index _ _ _ Hkeys Hkey) as [Htrim Hnonempty].
  destruct Hbad as [?|[?|[HV Hbad]]]; [done|done|].
  destruct Hval as [?|(v & Hv & Hfn)]; [done|].
  destruct (wellKeyed_index _ _ _ Hvals Hfn) as [Htrimv Hnonemptyv].
  by destruct (Hbad v Hv).
Qed.

Lemma untrimmed_query_matches_nothing_witness :
  filesMatchingQuery scenario [("color", [""; " red"])] = [].
Proof.
  apply (untrimmed_query_matches_nothing [("A", formA); ("B", formB)] scenario
           {[ "color" := [""; " red"] ]} _ "color" [""; " red"]).
  - apply scenario_built.
  - unfold ranges. by rewrite map_to_list_singleton.
  - apply lookup_singleton_eq.
  - right. right. split; [done|].
    intros v [->|[->|[]%elem_of_nil]%elem_of_cons]%elem_of_cons.
    + by right.
    + left. vm_compute. discriminate.
Defined.

End index_keys.

(** * Paths *)
Section paths.

Example Clean_examples :
  Clean "abc//def//ghi" = "abc/def/ghi" ∧
  Clean "abc/./def" = "abc/def" ∧
  Clean "abc/def/../ghi/../jkl" = "abc/jkl" ∧
  Clean "abc/def/../../.." = ".." ∧
  Clean "abc/../../././../def" = "../../def" ∧
  Clean "/../abc" = "/abc" ∧
  Clean "/abc/def/../../.." = "/" ∧
  Clean "abc/" = "abc" ∧
  Clean "" = "." ∧
  Clean "/" = "/" ∧
  Clean "abc/def/.." = "abc" ∧
  Clean "./forms/form_1.html" = "forms/form_1.html".
Proof. vm_compute. repeat split. Qed.

Lemma app_empty s : "" +:+ s = s.
Proof. reflexivity. Qed.

Lemma allBytes_app P s t :
  allBytes P (s +:+ t) = allBytes P s && allBytes P t.
Proof.
  induction s as [|c s IH]; [done|]. rewrite app_String. simpl.
  by rewrite IH, andb_assoc.
Qed.

(** The decimal digits that [pretty] prints pass every test that the ten
    digit characters pass. *)
Lemma pretty_N_go_allBytes P x s :
  (∀ d, P (pretty_N_char d) = true) →
  allBytes P s = true → allBytes P (pretty_N_go x s) = true.
Proof.
  intros HP. revert s.
  induction (N.lt_wf_0 x) as [x _ IH]; intros s Hs.
  destruct (decide (0 < x)%N) as [Hx|Hx].
  - rewrite pretty_N_go_step by done. apply IH.
    + by apply N.div_lt.
    + simpl. by rewrite HP, Hs.
  - assert (x = 0%N) as -> by lia. by rewrite pretty_N_go_0.
Qed.

Lemma pretty_N_allBytes P (x : N) :
  (∀ d, P (pretty_N_char d) = true) → allBytes P (pretty x) = true.
Proof.
  intros HP. unfold pretty, pretty_N. case_decide.
  - pose proof (HP 0%N) as H0. simpl in *. by rewrite H0.
  - by apply pretty_N_go_allBytes.
Qed.

Lemma pretty_N_char_digit d : isDigit (pretty_N_char d) = true.
Proof. unfold pretty_N_char. by repeat case_match. Qed.

Lemma pretty_N_char_notSlash d : notSlash (pretty_N_char d) = true.
Proof. unfold pretty_N_char. by repeat case_match. Qed.

Lemma pretty_Z_notSlash (z : Z) : allBytes notSlash (pretty z) = true.
Proof.
  destruct z as [|p|p]; [done| |].
  - apply (pretty_N_allBytes notSlash (Npos p)), pretty_N_char_notSlash.
  - change (pretty (Z.neg p)) with ("-" +:+ pretty (Npos p)).
    rewrite allBytes_app.
    by rewrite (pretty_N_allBytes notSlash (Npos p) pretty_N_char_notSlash).
Qed.

Lemma splitSlash_notSlash s :
  allBytes notSlash s = true → splitSlash s = [s].
Proof.
  induction s as [|c s IH]; [done|]. simpl.
  intros [Hc Hs]%andb_prop. unfold notSlash in Hc.
  apply negb_true_iff in Hc. by rewrite Hc, IH.
Qed.

(** A single path element under the root is clean already. *)
Lemma Clean_rooted_element s :
  allBytes notSlash s = true → s ≠ "" → s ≠ "." → s ≠ ".." →
  Clean ("/" +:+ s) = "/" +:+ s.
Proof.
  intros Hs H0 H1 H2. rewrite app_String, app_empty.
  assert (HasPrefix (String "/" s) "/" = true) as Hroot.
  { unfold HasPrefix. simpl. by destruct s. }
  unfold Clean. rewrite Hroot.
  change (splitSlash (String "/" s)) with ("" :: splitSlash s).
  rewrite (splitSlash_notSlash s Hs). cbn [foldl].
  change (cleanStep true [] "") with (@nil string).
  unfold cleanStep. rewrite decide_False by (intros [?|?]; done).
  by rewrite decide_False.
Qed.

Lemma HasPrefix_app prefix s : HasPrefix (prefix +:+ s) prefix = true.
Proof.
  unfold HasPrefix. induction prefix as [|c prefix IH].
  - by destruct s.
  - rewrite app_String. simpl. by destruct (ascii_dec c c).
Qed.

Lemma TrimPrefix_app prefix s : TrimPrefix (prefix +:+ s) prefix = s.
Proof.
  unfold TrimPrefix. rewrite HasPrefix_app.
  induction prefix as [|c prefix IH]; [done|]. by rewrite app_String.
Qed.

Lemma isPathSafe_baseNameAt ts : isPathSafe (baseNameAt ts) = false.
Proof.
  unfold isPathSafe. rewrite Clean_rooted_element.
  - unfold baseNameAt. by rewrite !app_String.
  - unfold baseNameAt. rewrite allBytes_app. by rewrite pretty_Z_notSlash.
  - unfold baseNameAt. by rewrite !app_String.
  - unfold baseNameAt. by rewrite !app_String.
  - unfold baseNameAt. by rewrite !app_String.
Qed.

(** Property X10.  A GET request for a form under the name that
    [writeFormFile] gave it is answered 404, whatever is on disk: the cleaned
    path [/form_...] does not start with [/forms], so [isPathSafe] rejects
    every generated name. *)
Theorem saved_form_is_never_served ts isFile order st :
  handlerGet ("/forms/" +:+ baseNameAt ts) isFile order st = NotFound.
Proof.
  unfold handlerGet.
  rewrite HasPrefix_app, TrimPrefix_app, isPathSafe_baseNameAt.
  rewrite bool_decide_eq_false_2; [done|].
  unfold baseNameAt. rewrite !app_String. discriminate.
Qed.

Lemma app_assoc_string a b c : (a +:+ b) +:+ c = a +:+ (b +:+ c).
Proof. induction a as [|x a IH]; [done|]. by rewrite !app_String, IH. Qed.

Lemma splitSlash_element a r :
  allBytes notSlash a = true → splitSlash (a +:+ String "/" r) = a :: splitSlash r.
Proof.
  induction a as [|c a IH]; [done|]. rewrite app_String. simpl.
  intros [Hc Ha]%andb_prop. unfold notSlash in Hc.
  apply negb_true_iff in Hc. by rewrite Hc, IH.
Qed.





End paths.

(** * Sequences of requests *)
Section requests.
Implicit Types (st : store) (reqs : list request).
Implicit Types (hist : list (string * gmap string (list string))).

Lemma serve_built reqs hist st :
  Forall wellRanged reqs → built hist st →
  built (hist ++ accepted reqs) (serve reqs st).1 ∧
  savedNames (serve reqs st).2 = (accepted reqs).*1.
Proof.
  intros Hwr. revert hist st.
  induction Hwr as [|req reqs Hreq _ IH]; intros hist st Hb.
  - cbn [serve accepted omap list_omap fst snd savedNames fmap list_fmap].
    by rewrite app_nil_r.
  - destruct req as [path isFile order|ts fsOK postForm order|].
    + unfold accepted, savedNames. cbn [serve handler omap list_omap fst snd].
      by apply IH.
    + unfold accepted, savedNames. cbn [serve handler omap list_omap fst snd].
      unfold handlerPost, writeFormFile.
      destruct fsOK; case_decide as Hsize; cbn [fst snd].
      * by apply IH.
      * destruct (IH (hist ++ [(baseNameAt ts, postForm)])
                    (indexFile (baseNameAt ts) order st)) as [IH1 IH2].
        { by apply built_snoc. }
        rewrite <- app_assoc in IH1. split; [exact IH1|].
        csimpl. f_equal. exact IH2.
      * by apply IH.
      * by apply IH.
    + unfold accepted, savedNames. cbn [serve handler omap list_omap fst snd].
      by apply IH.
Qed.

(** Property X12.  Whatever requests the form server handles from its start,
    its state is one built by [indexFile] from the accepted POST forms, in
    order, and [storedFiles] lists exactly the names it answered as saved.
    GET requests, other methods, empty forms and forms whose file could not
    be written leave the state as it is. *)
Theorem served_state_is_built reqs :
  Forall wellRanged reqs →
  built (accepted reqs) (serve reqs initial).1 ∧
  storedFiles (serve reqs initial).1 = savedNames (serve reqs initial).2.
Proof.
  intros Hwr.
  destruct (serve_built reqs [] initial Hwr built_nil) as [Hb Hsaved].
  split; [exact Hb|].
  by rewrite (built_storedFiles _ _ Hb), Hsaved.
Qed.

Lemma served_state_is_built_witness :
  built (accepted [PostReq 1 true formA (map_to_list formA);
                   GetReq "/" (λ _, false) [];
                   PostReq 2 false formB (map_to_list formB);
                   PostReq 3 true ∅ []])
    (serve [PostReq 1 true formA (map_to_list formA);
            GetReq "/" (λ _, false) [];
            PostReq 2 false formB (map_to_list formB);
            PostReq 3 true ∅ []] initial).1 ∧
  storedFiles (serve [PostReq 1 true formA (map_to_list formA);
                      GetReq "/" (λ _, false) [];
                      PostReq 2 false formB (map_to_list formB);
                      PostReq 3 true ∅ []] initial).1 =
  savedNames (serve [PostReq 1 true formA (map_to_list formA);
                     GetReq "/" (λ _, false) [];
                     PostReq 2 false formB (map_to_list formB);
                     PostReq 3 true ∅ []] initial).2.
Proof.
  apply served_state_is_built.
  apply Forall_cons_2; [apply ranges_map_to_list|].
  apply Forall_cons_2; [exact I|].
  apply Forall_cons_2; [apply ranges_map_to_list|].
  apply Forall_cons_2; [|apply Forall_nil_2].
  unfold wellRanged, ranges. by rewrite map_to_list_empty.
Defined.

End requests.

(** * Session identifiers *)
Section session_ids.
Implicit Types (ss : sessionStore) (sid : string).

(** What [%d] prints: an optional minus sign and at least one digit. *)
Lemma pretty_Z_shape (z : Z) :
  ∃ sign d, pretty z = sign +:+ d ∧ (sign = "" ∨ sign = "-") ∧
            allBytes isDigit d = true ∧ d ≠ "".
Proof.
  assert (∀ p, allBytes isDigit (pretty (Npos p)) = true ∧
               pretty (Npos p) ≠ "") as Hpos.
  { intros p. split.
    - apply pretty_N_allBytes, pretty_N_char_digit.
    - unfold pretty, pretty_N. rewrite decide_False by done.
      rewrite pretty_N_go_step by done.
      intros H. apply (f_equal String.length) in H.
      assert (∀ x s, String.length s ≤ String.length (pretty_N_go x s)) as Hlen.
      { clear. intros x. induction (N.lt_wf_0 x) as [x _ IH]; intros s.
        destruct (decide (0 < x)%N) as [Hx|Hx].
        - rewrite pretty_N_go_step by done.
          etrans; [|apply IH; by apply N.div_lt]. simpl. lia.
        - assert (x = 0%N) as -> by lia. by rewrite pretty_N_go_0. }
      match type of H with
      | String.length (pretty_N_go ?x ?s) = _ =>
          pose proof (Hlen x s) as Hle; rewrite H in Hle; simpl in Hle; lia
      end. }
  destruct z as [|p|p].
  - exists "", "0". by repeat split; [left|..].
  - exists "", (pretty (Npos p)). destruct (Hpos p). by repeat split; [left|..].
  - exists "-", (pretty (Npos p)). destruct (Hpos p). by repeat split; [right|..].
Qed.

Lemma digits_dash_split d1 d2 r1 r2 :
  allBytes isDigit d1 = true → allBytes isDigit d2 = true →
  d1 +:+ "-" +:+ r1 = d2 +:+ "-" +:+ r2 → d1 = d2 ∧ r1 = r2.
Proof.
  revert d2. induction d1 as [|c d1 IH]; intros [|c' d2];
    rewrite ?app_String, ?app_empty; simpl.
  - by intros _ _ [= ->].
  - intros _ [Hc _]%andb_prop [= <- _]. done.
  - intros [Hc _]%andb_prop _ [= -> _]. done.
  - intros [_ H1]%andb_prop [_ H2]%andb_prop [= -> Heq].
    destruct (IH d2 H1 H2 Heq) as [-> ->]. done.
Qed.

(** The identifier determines the clock reading and the counter it was
    printed from. *)
Lemma sessionID_inj (ts1 n1 ts2 n2 : Z) :
  pretty ts1 +:+ "-" +:+ pretty n1 = pretty ts2 +:+ "-" +:+ pretty n2 →
  ts1 = ts2 ∧ n1 = n2.
Proof.
  destruct (pretty_Z_shape ts1) as (s1 & d1 & E1 & Hs1 & Hd1 & Hne1).
  destruct (pretty_Z_shape ts2) as (s2 & d2 & E2 & Hs2 & Hd2 & Hne2).
  intros Heq. rewrite E1, E2, !app_assoc_string in Heq.
  assert (d1 = d2 ∧ s1 = s2 ∧ pretty n1 = pretty n2) as (-> & -> & Hn).
  { destruct Hs1 as [->| ->], Hs2 as [->| ->];
      rewrite ?app_String, ?app_empty in Heq.
    - by destruct (digits_dash_split _ _ _ _ Hd1 Hd2 Heq).
    - destruct d1 as [|c d1]; [done|]. rewrite app_String in Heq.
      injection Heq as -> _. done.
    - destruct d2 as [|c d2]; [done|]. rewrite app_String in Heq.
      injection Heq as <- _. done.
    - injection Heq as Heq.
      by destruct (digits_dash_split _ _ _ _ Hd1 Hd2 Heq). }
  split; [|by apply (inj pretty)].
  apply (inj pretty). by rewrite E1, E2.
Qed.

Lemma wrap64_succ n : (n < 2 ^ 63 - 1)%Z → (- 2 ^ 63 ≤ n)%Z →
  wrap64 (n + 1) = (n + 1)%Z.
Proof. intros. unfold wrap64. rewrite Z.mod_small by lia. lia. Qed.

Lemma newSession_spec ts username ss :
  sessionsNumbered ss →
  (1 ≤ nextSessNum ss < 2 ^ 63 - 1)%Z →
  sessions ss !! (newSession ts username ss).1 = None ∧
  sessions (newSession ts username ss).2 !! (newSession ts username ss).1
    = Some username ∧
  (∀ sid, sid ≠ (newSession ts username ss).1 →
          sessions (newSession ts username ss).2 !! sid = sessions ss !! sid) ∧
  sessionsNumbered (newSession ts username ss).2.
Proof.
  intros Hnum Hrange. cbn [newSession fst snd sessions nextSessNum].
  split; [|split; [|split]].
  - destruct (sessions ss !! _) as [u|] eqn:Hlook; [|done].
    destruct (Hnum _ _ Hlook) as (ts' & n & Heq & Hn).
    apply sessionID_inj in Heq as [_ <-]. lia.
  - apply lookup_insert_eq.
  - intros sid Hne. by apply lookup_insert_ne.
  - intros sid u. cbn [sessions nextSessNum].
    rewrite lookup_insert. rewrite wrap64_succ by lia.
    case_decide as Hsid.
    + intros _. exists ts, (nextSessNum ss). split; [done|lia].
    + intros Hlook. destruct (Hnum _ _ Hlook) as (ts' & n & Heq & Hn).
      exists ts', n. split; [done|lia].
Qed.


(** Property X13.  As long as the session counter has not reached the end of
    its range, [newSession] never hands out the identifier of a live session:
    when every live identifier carries a counter value below the next one,
    the new identifier is not yet in [sessions], it names the new user
    afterwards, every other session keeps its user, and the numbering is kept
    for the next call.  The clock may read anything, also the same value
    twice. *)
Theorem newSession_is_fresh ts username ss :
  sessionsNumbered ss →
  (1 ≤ nextSessNum ss < 2 ^ 63 - 1)%Z →
  sessions ss !! (newSession ts username ss).1 = None ∧
  sessions (newSession ts username ss).2 !! (newSession ts username ss).1
    = Some username ∧
  (∀ sid, sid ≠ (newSession ts username ss).1 →
          sessions (newSession ts username ss).2 !! sid = sessions ss !! sid) ∧
  sessionsNumbered (newSession ts username ss).2.
Proof. apply newSession_spec. Qed.

Lemma newSession_is_fresh_witness :
  sessions (newSession 5 "bob" (SessionStore ∅ 1)).2
    !! (newSession 5 "alice" (newSession 5 "bob" (SessionStore ∅ 1)).2).1
    = None ∧
  sessions (newSession 5 "alice" (newSession 5 "bob" (SessionStore ∅ 1)).2).2
    !! (newSession 5 "alice" (newSession 5 "bob" (SessionStore ∅ 1)).2).1
    = Some "alice" ∧
  (∀ sid, sid ≠ (newSession 5 "alice" (newSession 5 "bob" (SessionStore ∅ 1)).2).1 →
          sessions (newSession 5 "alice"
                      (newSession 5 "bob" (SessionStore ∅ 1)).2).2 !! sid =
          sessions (newSession 5 "bob" (SessionStore ∅ 1)).2 !! sid) ∧
  sessionsNumbered
    (newSession 5 "alice" (newSession 5 "bob" (SessionStore ∅ 1)).2).2.
Proof.
  assert (sessionsNumbered (SessionStore ∅ 1)) as H0.
  { intros sid u. simpl. by rewrite lookup_empty. }
  assert (1 ≤ nextSessNum (SessionStore ∅ 1) < 2 ^ 63 - 1)%Z as Hr0
    by (simpl; lia).
  pose proof (proj2 (proj2 (proj2
    (newSession_is_fresh 5 "bob" (SessionStore ∅ 1) H0 Hr0)))) as H1.
  apply (newSession_is_fresh 5 "alice" _ H1).
  vm_compute. split; [discriminate|reflexivity].
Defined.

(** Property X14.  A session identifier tells the clock reading and the
    counter value it was made from: two calls of [newSession] return the same
    identifier only when the clock read the same and the counter stood at the
    same value.  In particular two calls with different counter values never
    collide, whatever the clock reads. *)
Theorem session_id_determines_counter ts1 u1 ss1 ts2 u2 ss2 :
  (newSession ts1 u1 ss1).1 = (newSession ts2 u2 ss2).1 →
  ts1 = ts2 ∧ nextSessNum ss1 = nextSessNum ss2.
Proof. cbn [newSession fst]. apply sessionID_inj. Qed.

Lemma session_id_determines_counter_witness :
  (12 = 12)%Z ∧
  nextSessNum (SessionStore ∅ 3) = nextSessNum (SessionStore {[ "9-1" := "bob" ]} 3).
Proof.
  apply (session_id_determines_counter 12 "alice" (SessionStore ∅ 3)
           12 "carol" (SessionStore {[ "9-1" := "bob" ]} 3)).
  vm_compute. reflexivity.
Defined.

End session_ids.

(** * The dashboard server *)
Section dashboard_properties.
Variable sha256 : string → string.
Variable base64 : string → string.
Implicit Types (d : dashboard) (req : dreq) (reqs : list dreq).
Implicit Types (u sid : string) (rec : userRec).

Local Ltac kept :=
  eexists; split; [first [eassumption | reflexivity]|];
  split; reflexivity.

Lemma dstep_users_persist d req u rec :
  users d !! u = Some rec →
  ∃ rec', users (dstep sha256 base64 d req) !! u = Some rec' ∧
          Salt rec' = Salt rec ∧ PassHash rec' = PassHash rec.
Proof.
  intros Hu.
  destruct req as [meth rawQuery formOK username password redirect ts
                  |meth formOK username password salt ts
                  |cookie|cookie bypass rawQuery ts|meth cookie payload
                  |cookie q order ts fsOK|meth parseOK formfile|path];
    cbn [dstep].
  - unfold loginHandler. destruct meth, formOK; simpl; try kept.
    destruct (users d !! username); simpl; try kept.
    case_decide; simpl; try kept.
  - unfold registerHandler. destruct meth, formOK; simpl; try kept.
    destruct (users d !! username) eqn:Hname; simpl; try kept.
    exists rec. split; [|done]. rewrite lookup_insert_ne; [done|congruence].
  - unfold logoutHandler. destruct cookie; simpl; try kept.
  - unfold appHandler. case_decide; [destruct bypass|]; simpl; try kept.
    destruct (users d !! getUsername cookie (sess d)); simpl; kept.
  - unfold saveContextHandler. destruct meth; simpl; try kept.
    case_decide; simpl; try kept. destruct payload as [enc|]; simpl; try kept.
    destruct (users d !! getUsername cookie (sess d)) as [rec0|] eqn:Hname;
      simpl; try kept.
    destruct (decide (getUsername cookie (sess d) = u)) as [Heq|Hne].
    + rewrite Heq in *. rewrite lookup_insert_eq.
      assert (rec0 = rec) as -> by congruence. kept.
    + rewrite lookup_insert_ne by done. kept.
  - unfold queryHandler. repeat case_decide; simpl; try kept.
    destruct (writeFormFile ts fsOK); simpl; try kept.
  - unfold importHandler. destruct meth, parseOK; simpl; try kept.
    destruct formfile as [[filename [content|]]|]; simpl; try kept.
  - kept.
Qed.

Lemma drun_users_persist reqs d u rec :
  users d !! u = Some rec →
  ∃ rec', users (drun sha256 base64 reqs d) !! u = Some rec' ∧
          Salt rec' = Salt rec ∧ PassHash rec' = PassHash rec.
Proof.
  revert d rec. unfold drun.
  induction reqs as [|req reqs IH]; intros d rec Hu; simpl; [kept|].
  destruct (dstep_users_persist d req u rec Hu) as (rec1 & Hu1 & HS & HP).
  destruct (IH _ _ Hu1) as (rec2 & Hu2 & HS2 & HP2).
  exists rec2. split; [done|]. split; congruence.
Qed.

(** Property X15.  No request removes a user or changes a password: a user
    record that exists keeps its salt and its password hash through every
    sequence of requests (only the stored UI context can change). *)
Theorem credentials_persist reqs d u rec :
  users d !! u = Some rec →
  ∃ rec', users (drun sha256 base64 reqs d) !! u = Some rec' ∧
          Salt rec' = Salt rec ∧ PassHash rec' = PassHash rec.
Proof. apply drun_users_persist. Qed.

(** Property X16.  Registration and login agree: after a registration that
    was accepted (the name was free), and whatever requests follow, a login
    with the same name and password is answered with a redirect and a new
    session, and that session belongs to the registered name. *)
Theorem register_then_login d u p salt ts reqs rawQuery redirect ts' :
  users d !! u = None →
  let d1 := (registerHandler sha256 base64 POST true u p salt ts d).1 in
  let d2 := drun sha256 base64 reqs d1 in
  let r := loginHandler sha256 POST rawQuery true u p redirect ts' d2 in
  r.2 = LoginRedirect (newSession ts' u (sess d2)).1
          (if decide (redirect = "") then "/app" else "/app?" +:+ redirect) ∧
  getUsername (Some (newSession ts' u (sess d2)).1) (sess r.1) = u.
Proof.
  intros Hfree d1 d2 r.
  assert (users d1 !! u = Some {| Salt := salt;
                                  PassHash := hashPassword sha256 salt p;
                                  EncContextB64 := "" |}) as Hu1.
  { unfold d1, registerHandler. rewrite Hfree. simpl. apply lookup_insert_eq. }
  destruct (drun_users_persist reqs d1 u _ Hu1) as (rec' & Hu2 & HS & HP).
  fold d2 in Hu2. simpl in HS, HP.
  unfold r, loginHandler. rewrite Hu2. simpl.
  rewrite decide_True by (by rewrite HP, HS). simpl.
  split; [done|]. by rewrite lookup_insert_eq.
Qed.

Lemma sessionsNumbered_delete ss sid :
  sessionsNumbered ss →
  sessionsNumbered {| sessions := delete sid (sessions ss);
                      nextSessNum := nextSessNum ss |}.
Proof.
  intros Hnum sid' u. cbn [sessions nextSessNum].
  intros [_ Hlook]%lookup_delete_Some. by apply (Hnum sid' u).
Qed.

Lemma dstep_sess d req :
  sessionsNumbered (sess d) →
  (1 ≤ nextSessNum (sess d) < 2 ^ 63 - 1)%Z →
  sessionsNumbered (sess (dstep sha256 base64 d req)) ∧
  (nextSessNum (sess d) ≤ nextSessNum (sess (dstep sha256 base64 d req))
     ≤ nextSessNum (sess d) + 1)%Z.
Proof.
  intros Hnum Hrange.
  assert (∀ ts u, sessionsNumbered (newSession ts u (sess d)).2 ∧
            (nextSessNum (sess d) ≤ nextSessNum (newSession ts u (sess d)).2
               ≤ nextSessNum (sess d) + 1)%Z) as Hnew.
  { intros ts u. split; [by apply newSession_spec|].
    cbn [newSession snd nextSessNum]. rewrite wrap64_succ by lia. lia. }
  assert (sessionsNumbered (sess d) ∧
          (nextSessNum (sess d) ≤ nextSessNum (sess d)
             ≤ nextSessNum (sess d) + 1)%Z) as Hsame by (split; [done|lia]).
  destruct req as [meth rawQuery formOK username password redirect ts
                  |meth formOK username password salt ts
                  |cookie|cookie bypass rawQuery ts|meth cookie payload
                  |cookie q order ts fsOK|meth parseOK formfile|path];
    cbn [dstep].
  - unfold loginHandler. destruct meth, formOK; simpl; try done.
    destruct (users d !! username); simpl; try done.
    case_decide; simpl; [apply Hnew|done].
  - unfold registerHandler. destruct meth, formOK; simpl; try done.
    destruct (users d !! username); simpl; [done|apply Hnew].
  - unfold logoutHandler. destruct cookie; simpl; [|done].
    split; [by apply sessionsNumbered_delete|lia].
  - unfold appHandler. case_decide; [destruct bypass|]; simpl; try done.
    + apply Hnew.
    + destruct (users d !! getUsername cookie (sess d)); simpl; done.
  - unfold saveContextHandler. destruct meth; simpl; try done.
    case_decide; simpl; try done. destruct payload as [enc|]; simpl; try done.
    destruct (users d !! getUsername cookie (sess d)); simpl; done.
  - unfold queryHandler. repeat case_decide; simpl; try done.
    destruct (writeFormFile ts fsOK); simpl; done.
  - unfold importHandler. destruct meth, parseOK; simpl; try done.
    destruct formfile as [[filename [content|]]|]; simpl; done.
  - done.
Qed.

Lemma drun_sess reqs d :
  sessionsNumbered (sess d) →
  (1 ≤ nextSessNum (sess d))%Z →
  (nextSessNum (sess d) + Z.of_nat (length reqs) < 2 ^ 63)%Z →
  sessionsNumbered (sess (drun sha256 base64 reqs d)) ∧
  (nextSessNum (sess d) ≤ nextSessNum (sess (drun sha256 base64 reqs d))
     ≤ nextSessNum (sess d) + Z.of_nat (length reqs))%Z.
Proof.
  revert d. unfold drun.
  induction reqs as [|req reqs IH]; intros d Hnum Hlo Hhi.
  - simpl. split; [done|]. simpl in Hhi. lia.
  - cbn [foldl]. rewrite length_cons, Nat2Z.inj_succ in *.
    destruct (dstep_sess d req Hnum) as [Hnum1 Hstep]; [lia|].
    destruct (IH _ Hnum1) as [Hnum2 Hrun]; [lia|lia|].
    split; [done|lia].
Qed.

(** Property X17.  From the start of the server and for any sequence of fewer
    than 2^63 - 1 requests, every live session identifier carries a counter
    value below the next one: the precondition under which [newSession]
    hands out fresh identifiers holds at every login, registration and guest
    entry. *)
Theorem sessions_stay_numbered reqs :
  (Z.of_nat (length reqs) < 2 ^ 63 - 1)%Z →
  sessionsNumbered (sess (drun sha256 base64 reqs dashboardStart)) ∧
  (1 ≤ nextSessNum (sess (drun sha256 base64 reqs dashboardStart))
     ≤ 1 + Z.of_nat (length reqs))%Z.
Proof.
  intros Hlen. apply (drun_sess reqs dashboardStart).
  - intros sid u. simpl. by rewrite lookup_empty.
  - simpl. lia.
  - simpl. lia.
Qed.

Lemma getUsername_delete d sid cookie :
  getUsername cookie (sess (logoutHandler (Some sid) d)) =
  if decide (cookie = Some sid) then "" else getUsername cookie (sess d).
Proof.
  unfold logoutHandler, getUsername. cbn [sess withSess sessions].
  destruct cookie as [sid'|]; [|by case_decide].
  case_decide as Heq.
  - injection Heq as ->. by rewrite lookup_delete_eq.
  - rewrite lookup_delete_ne; [done|congruence].
Qed.

(** Property X18.  Logging out ends exactly the session of the cookie.  With
    that cookie the dashboard then redirects to the login page and a query is
    answered 401, both without changing the state; every other cookie names
    the same user as before. *)
Theorem logout_ends_session d sid rawQuery ts q order ts' fsOK :
  let d1 := logoutHandler (Some sid) d in
  appHandler base64 (Some sid) false rawQuery ts d1 =
    (d1, AppRedirect (if decide (rawQuery = "") then "/login"
                      else "/login?" +:+ rawQuery)) ∧
  queryHandler (Some sid) q order ts' fsOK d1 = (d1, QueryUnauthorized) ∧
  (∀ cookie, cookie ≠ Some sid →
     getUsername cookie (sess d1) = getUsername cookie (sess d)) ∧
  users d1 = users d ∧ forms d1 = forms d.
Proof.
  intros d1.
  assert (getUsername (Some sid) (sess d1) = "") as Hout.
  { unfold d1. rewrite getUsername_delete. by rewrite decide_True. }
  split; [|split; [|split]].
  - unfold appHandler. rewrite Hout. by rewrite decide_True.
  - unfold queryHandler. rewrite Hout. by rewrite decide_True.
  - intros cookie Hne. unfold d1. rewrite getUsername_delete.
    by rewrite decide_False.
  - done.
Qed.


(** Property X20.  The stored UI context comes back as it was sent.  After a
    logged-in user saves a context, the dashboard page for a session of that
    user carries the user's name, the encoding of the user's salt, and the
    context just saved. *)
Theorem saved_context_is_returned d sid u rec enc bypass rawQuery ts :
  sessions (sess d) !! sid = Some u → u ≠ "" → users d !! u = Some rec →
  let r := saveContextHandler POST (Some sid) (Some enc) d in
  r.2 = SaveOK ∧
  appHandler base64 (Some sid) bypass rawQuery ts r.1 =
    (r.1, AppPage None u (base64 (Salt rec)) enc
            (if bypass then "true" else "false")).
Proof.
  intros Hsid Hu Hrec r.
  assert (getUsername (Some sid) (sess d) = u) as Hname
    by (unfold getUsername; by rewrite Hsid).
  assert (r = (withUsers d (<[u := {| Salt := Salt rec;
                                      PassHash := PassHash rec;
                                      EncContextB64 := enc |}]> (users d)),
               SaveOK)) as ->.
  { unfold r, saveContextHandler. rewrite Hname, Hrec.
    by rewrite decide_False. }
  cbn [fst snd]. split; [done|].
  unfold appHandler. cbn [sess withUsers users]. rewrite Hname.
  rewrite decide_False by done. by rewrite lookup_insert_eq.
Qed.

Lemma splitSlash_templates filename :
  allBytes notSlash filename = true →
  splitSlash ("/templates/" +:+ filename) = [""; "templates"; filename].
Proof.
  intros Hf.
  change ("/templates/" +:+ filename)
    with ("" +:+ String "/" ("templates" +:+ String "/" filename)).
  by rewrite (splitSlash_element ""), (splitSlash_element "templates"),
    (splitSlash_notSlash filename).
Qed.

(** Property X21.  An imported template can be fetched back.  After an upload
    that was accepted, the request for [/templates/] followed by the file
    name returns the content wrapped in its [template] element, when the
    file name holds no slash; the templates under other such names are
    returned as before. *)
Theorem imported_template_is_served d filename content :
  allBytes notSlash filename = true →
  let d1 := (importHandler POST true (Some (filename, Some content)) d).1 in
  templateFileHandler ("/templates/" +:+ filename) d1 =
    Some (wrapTemplate filename content) ∧
  (∀ other, allBytes notSlash other = true → other ≠ filename →
     templateFileHandler ("/templates/" +:+ other) d1 =
     templateFileHandler ("/templates/" +:+ other) d).
Proof.
  intros Hf d1. unfold templateFileHandler. split.
  - rewrite (splitSlash_templates _ Hf). simpl. apply lookup_insert_eq.
  - intros other Ho Hne. rewrite (splitSlash_templates _ Ho). simpl.
    by apply lookup_insert_ne.
Qed.

Lemma dstep_forms d req hist :
  queryRanged req → built hist (forms d) →
  ∃ hist', built hist' (forms (dstep sha256 base64 d req)).
Proof.
  intros Hr Hb.
  destruct req as [meth rawQuery formOK username password redirect ts
                  |meth formOK username password salt ts
                  |cookie|cookie bypass rawQuery ts|meth cookie payload
                  |cookie q order ts fsOK|meth parseOK formfile|path];
    cbn [dstep].
  - unfold loginHandler. destruct meth, formOK; simpl; eauto.
    destruct (users d !! username); simpl; eauto.
    case_decide; simpl; eauto.
  - unfold registerHandler. destruct meth, formOK; simpl; eauto.
    destruct (users d !! username); simpl; eauto.
  - unfold logoutHandler. destruct cookie; simpl; eauto.
  - unfold appHandler. case_decide; [destruct bypass|]; simpl; eauto.
    destruct (users d !! getUsername cookie (sess d)); simpl; eauto.
  - unfold saveContextHandler. destruct meth; simpl; eauto.
    case_decide; simpl; eauto. destruct payload as [enc|]; simpl; eauto.
    destruct (users d !! getUsername cookie (sess d)); simpl; eauto.
  - unfold queryHandler, writeFormFile. repeat case_decide; simpl; eauto.
    destruct fsOK; simpl; eauto.
    exists (hist ++ [(baseNameAt ts, q)]). by apply built_snoc.
  - unfold importHandler. destruct meth, parseOK; simpl; eauto.
    destruct formfile as [[filename [content|]]|]; simpl; eauto.
  - eauto.
Qed.

(** Property X22.  The form index of the dashboard server is always a state
    built by [indexFile]: whatever requests are handled from the start, some
    sequence of [indexFile] calls accounts for [keyToFiles], [valueToFiles]
    and [storedFiles], and [storedFiles] lists the names of these calls. *)
Theorem dashboard_index_is_built reqs :
  Forall queryRanged reqs →
  ∃ hist, built hist (forms (drun sha256 base64 reqs dashboardStart)) ∧
          storedFiles (forms (drun sha256 base64 reqs dashboardStart)) = hist.*1.
Proof.
  intros Hr.
  assert (∀ d hist, built hist (forms d) →
            ∃ hist', built hist' (forms (drun sha256 base64 reqs d))) as Hrun.
  { unfold drun. induction Hr as [|req reqs Hreq _ IH]; intros d hist Hb.
    - by exists hist.
    - cbn [foldl]. destruct (dstep_forms d req hist Hreq Hb) as (hist1 & Hb1).
      by apply (IH _ hist1). }
  destruct (Hrun dashboardStart [] built_nil) as (hist & Hb).
  exists hist. split; [done|]. by apply built_storedFiles.
Qed.

Lemma dstep_templates d req n :
  is_Some (templates (dstep sha256 base64 d req) !! n) ↔
  is_Some (templates d !! n) ∨ n ∈ imported [req].
Proof.
  assert (∀ P : Prop, P ↔ P ∨ n ∈ @nil string) as Hnil
    by (intros P; rewrite elem_of_nil; tauto).
  destruct req as [meth rawQuery formOK username password redirect ts
                  |meth formOK username password salt ts
                  |cookie|cookie bypass rawQuery ts|meth cookie payload
                  |cookie q order ts fsOK|meth parseOK formfile|path];
    cbn [dstep imported omap list_omap].
  - unfold loginHandler. destruct meth, formOK; simpl; try exact (Hnil _).
    destruct (users d !! username); simpl; try exact (Hnil _).
    case_decide; simpl; exact (Hnil _).
  - unfold registerHandler. destruct meth, formOK; simpl; try exact (Hnil _).
    destruct (users d !! username); simpl; exact (Hnil _).
  - unfold logoutHandler. destruct cookie; simpl; exact (Hnil _).
  - unfold appHandler. case_decide; [destruct bypass|]; simpl; try exact (Hnil _).
    destruct (users d !! getUsername cookie (sess d)); simpl; exact (Hnil _).
  - unfold saveContextHandler. destruct meth; simpl; try exact (Hnil _).
    case_decide; simpl; try exact (Hnil _).
    destruct payload as [enc|]; simpl; try exact (Hnil _).
    destruct (users d !! getUsername cookie (sess d)); simpl; exact (Hnil _).
  - unfold queryHandler. repeat case_decide; simpl; try exact (Hnil _).
    destruct (writeFormFile ts fsOK); simpl; exact (Hnil _).
  - unfold importHandler. destruct meth, parseOK; simpl; try exact (Hnil _).
    destruct formfile as [[filename [content|]]|]; simpl; try exact (Hnil _).
    rewrite lookup_insert_is_Some, list_elem_of_singleton.
    destruct (decide (filename = n)); naive_solver.
  - exact (Hnil _).
Qed.

Lemma omap_cons_app {A B} (f : A → option B) x (l : list A) :
  omap f (x :: l) = omap f [x] ++ omap f l.
Proof. cbn [omap list_omap]. by destruct (f x). Qed.

Lemma drun_templates reqs d n :
  is_Some (templates (drun sha256 base64 reqs d) !! n) ↔
  is_Some (templates d !! n) ∨ n ∈ imported reqs.
Proof.
  revert d. unfold drun. induction reqs as [|req reqs IH]; intros d.
  - simpl. rewrite elem_of_nil. tauto.
  - cbn [foldl]. rewrite IH, dstep_templates.
    unfold imported. rewrite (omap_cons_app _ req reqs), elem_of_app. tauto.
Qed.

(** Property X23.  The manifest lists every imported template once: for every
    sequence of requests from the start and every order in which the
    template map is ranged over, the names returned have no duplicates and
    are exactly the file names of the accepted uploads. *)
Theorem manifest_lists_imports reqs order :
  order ≡ₚ map_to_list (templates (drun sha256 base64 reqs dashboardStart)) →
  NoDup (templatesManifestHandler order) ∧
  ∀ n, n ∈ templatesManifestHandler order ↔ n ∈ imported reqs.
Proof.
  intros Hperm. unfold templatesManifestHandler. split.
  - rewrite Hperm. apply NoDup_fst_map_to_list.
  - intros n. rewrite list_elem_of_fmap. split.
    + intros ([n' c] & -> & Hin). rewrite Hperm in Hin.
      apply elem_of_map_to_list in Hin. simpl.
      assert (is_Some (templates (drun sha256 base64 reqs dashboardStart) !! n'))
        as Hsome by eauto.
      apply drun_templates in Hsome as [[? Hsome]|?]; [|done].
      simpl in Hsome. by rewrite lookup_empty in Hsome.
    + intros Hn.
      assert (is_Some (templates (drun sha256 base64 reqs dashboardStart) !! n))
        as [c Hc] by (apply drun_templates; by right).
      exists (n, c). split; [done|]. rewrite Hperm.
      by apply elem_of_map_to_list.
Qed.

End dashboard_properties.

(** Runs of the dashboard server with the identity in place of the hash
    and of the encoding. *)
Section dashboard_examples.

Lemma register_then_login_witness :
  (loginHandler id POST "" true "alice" "pw" "" 7
     (drun id id [ReqLogout (Some "1-1"); ReqSaveContext POST (Some "1-1") (Some "x")]
        (registerHandler id id POST true "alice" "pw" "salt" 1 dashboardStart).1)).2
  = LoginRedirect
      (newSession 7 "alice"
         (sess (drun id id [ReqLogout (Some "1-1");
                            ReqSaveContext POST (Some "1-1") (Some "x")]
                  (registerHandler id id POST true "alice" "pw" "salt" 1
                     dashboardStart).1))).1
      (if decide ("" = "") then "/app" else "/app?" +:+ "") ∧
  getUsername
    (Some (newSession 7 "alice"
         (sess (drun id id [ReqLogout (Some "1-1");
                            ReqSaveContext POST (Some "1-1") (Some "x")]
                  (registerHandler id id POST true "alice" "pw" "salt" 1
                     dashboardStart).1))).1)
    (sess (loginHandler id POST "" true "alice" "pw" "" 7
       (drun id id [ReqLogout (Some "1-1"); ReqSaveContext POST (Some "1-1") (Some "x")]
          (registerHandler id id POST true "alice" "pw" "salt" 1 dashboardStart).1)).1)
  = "alice".
Proof.
  apply (register_then_login id id dashboardStart "alice" "pw" "salt" 1
           [ReqLogout (Some "1-1"); ReqSaveContext POST (Some "1-1") (Some "x")]
           "" "" 7).
  apply lookup_empty.
Defined.

Lemma credentials_persist_witness :
  ∃ rec',
    users (drun id id [ReqSaveContext POST (Some "1-1") (Some "ciphertext");
                       ReqRegister POST true "alice" "other" "salt2" 2]
             (registerHandler id id POST true "alice" "pw" "salt" 1
                dashboardStart).1) !! "alice" = Some rec' ∧
    Salt rec' = Salt (UserRec "salt" (hashPassword id "salt" "pw") "") ∧
    PassHash rec' = PassHash (UserRec "salt" (hashPassword id "salt" "pw") "").
Proof.
  apply (credentials_persist id id
           [ReqSaveContext POST (Some "1-1") (Some "ciphertext");
            ReqRegister POST true "alice" "other" "salt2" 2]
           (registerHandler id id POST true "alice" "pw" "salt" 1
              dashboardStart).1 "alice").
  vm_compute. reflexivity.
Defined.

Lemma sessions_stay_numbered_witness :
  sessionsNumbered
    (sess (drun id id [ReqRegister POST true "alice" "pw" "salt" 1;
                       ReqApp None true "" 1; ReqLogout (Some "1-1")]
             dashboardStart)) ∧
  (1 ≤ nextSessNum
         (sess (drun id id [ReqRegister POST true "alice" "pw" "salt" 1;
                            ReqApp None true "" 1; ReqLogout (Some "1-1")]
                  dashboardStart))
     ≤ 1 + Z.of_nat (length [ReqRegister POST true "alice" "pw" "salt" 1;
                             ReqApp None true "" 1; ReqLogout (Some "1-1")]))%Z.
Proof.
  apply (sessions_stay_numbered id id). vm_compute. reflexivity.
Defined.

Lemma logout_ends_session_witness :
  let d := (registerHandler id id POST true "alice" "pw" "salt" 1
              dashboardStart).1 in
  let d1 := logoutHandler (Some "1-1") d in
  appHandler id (Some "1-1") false "" 2 d1 =
    (d1, AppRedirect (if decide ("" = "") then "/login" else "/login?" +:+ "")) ∧
  queryHandler (Some "1-1") formA (map_to_list formA) 3 true d1 =
    (d1, QueryUnauthorized) ∧
  (∀ cookie, cookie ≠ Some "1-1" →
     getUsername cookie (sess d1) = getUsername cookie (sess d)) ∧
  users d1 = users d ∧ forms d1 = forms d.
Proof.
  intros d. apply (logout_ends_session id d "1-1" "" 2 formA _ 3 true).
Defined.


Lemma saved_context_is_returned_witness :
  let d := (registerHandler id id POST true "alice" "pw" "salt" 1
              dashboardStart).1 in
  let r := saveContextHandler POST (Some "1-1") (Some "ciphertext") d in
  r.2 = SaveOK ∧
  appHandler id (Some "1-1") false "" 2 r.1 =
    (r.1, AppPage None "alice"
            (id (Salt (UserRec "salt" (hashPassword id "salt" "pw") "")))
            "ciphertext" (if false then "true" else "false")).
Proof.
  intros d.
  apply (saved_context_is_returned id d "1-1" "alice"
           (UserRec "salt" (hashPassword id "salt" "pw") "")
           "ciphertext" false "" 2).
  - vm_compute. reflexivity.
  - discriminate.
  - vm_compute. reflexivity.
Defined.

Lemma imported_template_is_served_witness :
  let d1 := (importHandler POST true (Some ("card.html", Some "<p>hi</p>"))
               dashboardStart).1 in
  templateFileHandler ("/templates/" +:+ "card.html") d1 =
    Some (wrapTemplate "card.html" "<p>hi</p>") ∧
  (∀ other, allBytes notSlash other = true → other ≠ "card.html" →
     templateFileHandler ("/templates/" +:+ other) d1 =
     templateFileHandler ("/templates/" +:+ other) dashboardStart).
Proof.
  apply (imported_template_is_served dashboardStart "card.html" "<p>hi</p>").
  reflexivity.
Defined.

Lemma dashboard_index_is_built_witness :
  ∃ hist,
    built hist
      (forms (drun id id [ReqRegister POST true "alice" "pw" "salt" 1;
                          ReqQuery (Some "1-1") formA (map_to_list formA) 5 true]
                dashboardStart)) ∧
    storedFiles
      (forms (drun id id [ReqRegister POST true "alice" "pw" "salt" 1;
                          ReqQuery (Some "1-1") formA (map_to_list formA) 5 true]
                dashboardStart)) = hist.*1.
Proof.
  apply (dashboard_index_is_built id id).
  apply Forall_cons_2; [exact I|].
  apply Forall_cons_2; [apply ranges_map_to_list|apply Forall_nil_2].
Defined.

Example dashboard_query_stored :
  storedFiles
    (forms (drun id id [ReqRegister POST true "alice" "pw" "salt" 1;
                        ReqQuery (Some "1-1") formA (map_to_list formA) 5 true]
              dashboardStart)) = ["form_5"].
Proof. vm_compute. reflexivity. Qed.

Lemma manifest_lists_imports_witness :
  NoDup (templatesManifestHandler
           (map_to_list
              (templates (drun id id
                 [ReqImport POST true (Some ("a.html", Some "one"));
                  ReqImport POST true (Some ("b.html", Some "two"));
                  ReqImport POST true (Some ("a.html", Some "three"))]
                 dashboardStart)))) ∧
  ∀ n, n ∈ templatesManifestHandler
             (map_to_list
                (templates (drun id id
                   [ReqImport POST true (Some ("a.html", Some "one"));
                    ReqImport POST true (Some ("b.html", Some "two"));
                    ReqImport POST true (Some ("a.html", Some "three"))]
                   dashboardStart))) ↔
       n ∈ imported [ReqImport POST true (Some ("a.html", Some "one"));
                     ReqImport POST true (Some ("b.html", Some "two"));
                     ReqImport POST true (Some ("a.html", Some "three"))].
Proof. apply (manifest_lists_imports id id). reflexivity. Defined.

End dashboard_examples.
